(** * dbt compilation pipeline and dependency linker

    A shallow embedding of [dbt/compilation.py]: the [Linker] around a
    directed graph, the reference resolver [find_model_by_name], the [ref]
    callable injected into templates, [compile_model] and [compile].

    Python objects become records, [set()] and the node and edge sets of the
    graph become [gset]s, the mapping returned by [get_config] becomes a
    [gmap], and the code's effects (graph mutation, file system, [print],
    exceptions) are threaded through a state-and-exception monad. *)

From stdpp Require Import gmap strings list fin_maps pretty.

(** ** Values, paths, exceptions *)

(** A file-system path, as its sequence of components; [os.path.join] is
    concatenation and [os.path.dirname] drops the last component. The empty
    sequence is the empty string, which names nothing. *)
Abbreviation path := (list string).

(** A fully-qualified name: [tuple(model.fqn)]. *)
Abbreviation FQN := (list string).

(** The Python values a config mapping holds, with their truth value. *)
Inductive pyval : Type :=
  | PyNone
  | PyBool (b : bool)
  | PyInt (z : Z)
  | PyStr (s : string).

Definition truthy (v : pyval) : bool :=
  match v with
  | PyNone => false
  | PyBool b => b
  | PyInt z => negb (Z.eqb z 0)
  | PyStr s => negb (String.eqb s "")
  end.

(** [d.get(k)]: the value under [k], or [None]. *)
Definition dict_get (d : gmap string pyval) (k : string) : pyval :=
  default PyNone (d !! k).

Inductive exn : Type :=
  | RuntimeError (msg : string)
  | OSError (p : path)
  | IOError (p : path)
  | UnboundLocalError (var : string)
  | NetworkXUnfeasible (msg : string)
  | TemplateNotFound (p : path)
  | KeyError (key : string).

(** The double-quote character of ['"{}"."{}"']. *)
Definition dq : string := String (Ascii.ascii_of_nat 34) EmptyString.

(** ** Projects, template adapters and model descriptors *)

(** The project configuration, a mapping with the keys the compiler reads:
    [project['name']], [project['target-path']], [project['modules-path']],
    [project.get('source-paths', [])], [project.get('analysis-paths', [])]
    and [project.context()['env']['schema']]. [context_error] is the
    exception that [project.context()] raises, if it raises one, and
    [schema_error] the one that the lookup [ctx['env']['schema']] raises when
    the context lacks the entry; [env_schema] is the entry when it is
    there. *)
Record Project : Type := {
  project_name : string;
  target_path : path;
  modules_path : path;
  source_paths : list path;
  analysis_paths : list path;
  env_schema : string;
  context_error : option exn;
  schema_error : option exn
}.

(** The interface of [create_template_class()]: the naming transform and
    the label that names the graph file. *)
Class CreateTemplate : Type := {
  model_name : string -> string;
  label : string
}.

(** What a template does when rendered: literal text, and calls of the
    injected [ref] whose result is written into the output, as in
    [{{ ref('a') }}] and [{{ ref('pkg', 'a') }}]. *)
Inductive piece : Type :=
  | Text (s : string)
  | Ref (args : list string).

(** A model or analysis descriptor. The class is defined outside this
    module; the compiler uses the attributes [name], [fqn], [project],
    [top_dir] and [rel_filepath] and the methods [get_config], [compile] and
    [build_path], which each descriptor carries. [template] is the template
    that [jinja.get_template(model.rel_filepath)] loads from [top_dir], and
    [template_error] the exception that it raises when the template does not
    load; [repr] is the text [format] prints for the descriptor. *)
Record Model : Type := {
  name : string;
  fqn : FQN;
  project : Project;
  top_dir : path;
  rel_filepath : path;
  template : list piece;
  template_error : option exn;
  repr : string;
  get_config : Project -> gmap string pyval;
  compile_stmt : string -> Project -> CreateTemplate -> option string;
  build_path : CreateTemplate -> path
}.

(** ** Compiler.find_model_by_name *)

(** The test of the scan's body: the name matches and, when a package
    namespace is given, it is the name of the model's project. *)
Definition matches (nm : string) (package_namespace : option string)
    (model : Model) : bool :=
  if bool_decide (name model = nm) then
    match package_namespace with
    | None => true
    | Some pkg => bool_decide (pkg = project_name (project model))
    end
  else false.

Definition nice_package_name (package_namespace : option string) : string :=
  match package_namespace with
  | None => "ANY"
  | Some pkg => pkg
  end.

(** [str(found)] for a list: the [repr] of the items between brackets. *)
Fixpoint join (sep : string) (l : list string) : string :=
  match l with
  | [] => ""
  | [s] => s
  | s :: rest => s +:+ sep +:+ join sep rest
  end.

Definition repr_list (found : list Model) : string :=
  "[" +:+ join ", " (map repr found) +:+ "]".

Definition not_found_msg (nm ns : string) : string :=
  "Can't find a model named '" +:+ nm +:+ "' in package '" +:+ ns
    +:+ "' -- does it exist?".

Definition ambiguous_msg (nm ns : string) (found : list Model) : string :=
  "Model specification is ambiguous: model='" +:+ nm +:+ "' package='"
    +:+ ns +:+ "' -- " +:+ pretty (length found)
    +:+ " models match criteria: " +:+ repr_list found.

Definition find_model_by_name (project_models : list Model) (nm : string)
    (package_namespace : option string) : exn + Model :=
  let found := filter (λ m, matches nm package_namespace m = true) project_models in
  let nice := nice_package_name package_namespace in
  match found with
  | [] => inl (RuntimeError (not_found_msg nm nice))
  | [m] => inr m
  | _ => inl (RuntimeError (ambiguous_msg nm nice found))
  end.

(** ** The state-and-exception monad

    A computation over a state [S] returns a value or raises, and in both
    cases leaves the state its effects produced: what was written before an
    exception stays written. *)

Definition M (S A : Type) : Type := S -> (exn + A) * S.

#[global] Instance M_ret {S} : MRet (M S) := λ A a s, (inr a, s).

#[global] Instance M_bind {S} : MBind (M S) := λ A B k m s,
  match m s with
  | (inl e, s') => (inl e, s')
  | (inr a, s') => k a s'
  end.

Definition raise {S A} (e : exn) : M S A := λ s, (inl e, s).

Definition modify {S} (f : S -> S) : M S unit := λ s, (inr (), f s).

Definition gets {S A} (f : S -> A) : M S A := λ s, (inr (f s), s).

(** Raise the exception, when there is one. *)
Definition raise_if {S} (e : option exn) : M S unit := λ s,
  match e with
  | Some x => (inl x, s)
  | None => (inr (), s)
  end.

(** A pure computation that may raise. *)
Definition lift {S A} (r : exn + A) : M S A := λ s, (r, s).

(** ** The directed graph and the Linker *)

(** [nx.DiGraph()]: a set of nodes and a set of directed edges. Adding an
    edge adds its end points; adding what is there changes nothing. *)
Record DiGraph : Type := {
  nodes : gset FQN;
  edges : gset (FQN * FQN)
}.

Definition nx_empty : DiGraph := {| nodes := ∅; edges := ∅ |}.

Definition nx_add_node (n : FQN) (g : DiGraph) : DiGraph :=
  {| nodes := {[n]} ∪ nodes g; edges := edges g |}.

Definition nx_add_edge (u v : FQN) (g : DiGraph) : DiGraph :=
  {| nodes := {[u; v]} ∪ nodes g; edges := {[(u, v)]} ∪ edges g |}.

(** Modelled from the spec: [nx.topological_sort(graph, nbunch)], the
    function of the networkx library whose result [as_dependency_list]
    returns, is not under src/. Following the spec's
    [topologicalOrder(subset=optional)], the relevant nodes are all the nodes
    of the graph, or those of them that are in the subset when one is given.
    They are returned one per round: a round takes the first relevant node
    not yet returned whose predecessors among the relevant nodes have all
    been returned, and a round that finds no such node fails with the cycle
    error. There are as many rounds as relevant nodes. *)
Definition relevant_nodes (g : DiGraph) (limit_to : option (list FQN))
    : list FQN :=
  match limit_to with
  | None => elements (nodes g)
  | Some subset => filter (λ n, n ∈ subset) (elements (nodes g))
  end.

Definition ready (g : DiGraph) (relevant emitted : list FQN) (v : FQN)
    : Prop :=
  (v ∉ emitted) ∧ Forall (λ u, (u, v) ∈ edges g → u ∈ emitted) relevant.

#[global] Instance ready_dec g relevant emitted v :
  Decision (ready g relevant emitted v).
Proof. unfold ready. apply _. Defined.

Definition cycle_error : exn := NetworkXUnfeasible "Graph contains a cycle.".

Fixpoint topological_rounds (n : nat) (g : DiGraph)
    (relevant emitted : list FQN) : exn + list FQN :=
  match n with
  | 0 => inr emitted
  | S n' =>
      match list_find (ready g relevant emitted) relevant with
      | Some (_, v) => topological_rounds n' g relevant (emitted ++ [v])
      | None => inl cycle_error
      end
  end.

Definition topological_sort (g : DiGraph) (limit_to : option (list FQN))
    : exn + list FQN :=
  let relevant := relevant_nodes g limit_to in
  topological_rounds (length relevant) g relevant [].

Module Linker.

(** [Linker()] *)
Definition init : DiGraph := nx_empty.

Definition add_node (node : FQN) : M DiGraph unit :=
  modify (nx_add_node node).

(** [dependency(node1, node2)]: indicate that node1 depends on node2. *)
Definition dependency (node1 node2 : FQN) : M DiGraph unit :=
  modify (nx_add_node node1);;
  modify (nx_add_node node2);;
  modify (nx_add_edge node2 node1).

Definition as_dependency_list (limit_to : option (list FQN))
    : M DiGraph (list FQN) :=
  λ g, (topological_sort g limit_to, g).

End Linker.

(** ** The file system and the output stream *)

(** What a file holds: text written by [f.write(payload)], or a graph
    written by [nx.write_yaml]. *)
Inductive content : Type :=
  | FileText (payload : string)
  | FileGraph (g : DiGraph).

Record FS : Type := {
  dirs : gset path;
  files : gmap path content
}.

(** The state outside the linker: the file system and what [print] wrote. *)
Record World : Type := {
  fs : FS;
  stdout : list path
}.

Definition dirname (p : path) : path := removelast p.

Definition isdir (w : World) (p : path) : bool :=
  bool_decide (p ∈ dirs (fs w)).

Definition isfile (w : World) (p : path) : bool :=
  bool_decide (is_Some (files (fs w) !! p)).

(** [os.path.exists] *)
Definition path_exists (w : World) (p : path) : bool :=
  isdir w p || isfile w p.

(** The non-empty prefixes of a path, shortest first, the path itself last. *)
Fixpoint prefixes (p : path) : list path :=
  match p with
  | [] => []
  | x :: rest => [x] :: map (cons x) (prefixes rest)
  end.

Definition set_dirs (d : gset path) (w : World) : World :=
  {| fs := {| dirs := d; files := files (fs w) |}; stdout := stdout w |}.

Definition set_files (f : gmap path content) (w : World) : World :=
  {| fs := {| dirs := dirs (fs w); files := f |}; stdout := stdout w |}.

(** [os.makedirs(p)]: creates [p] and the directories above it that are
    missing; raises when [p] is empty or exists, or when a file is in the
    way. *)
Definition makedirs (p : path) : M World unit := λ w,
  if bool_decide (p = []) || path_exists w p || existsb (isfile w) (prefixes p)
  then (inl (OSError p), w)
  else (inr (), set_dirs (list_to_set (prefixes p) ∪ dirs (fs w)) w).

(** [with open(p, 'w') as f: f.write(c)]: the directory of [p] must exist
    (the working directory, for a bare file name) and [p] must not be a
    directory. *)
Definition write_file (p : path) (c : content) : M World unit := λ w,
  if bool_decide (p = []) || isdir w p
     || negb (bool_decide (dirname p = []) || isdir w (dirname p))
  then (inl (IOError p), w)
  else (inr (), set_files (<[p := c]> (files (fs w))) w).

Definition print (p : path) : M World unit :=
  modify (λ w, {| fs := fs w; stdout := stdout w ++ [p] |}).

(** [os.listdir(d)]: the names of the entries of directory [d]. *)
Definition listdir (d : path) : M World (list string) := λ w,
  if isdir w d
  then (inr (omap (λ p, if bool_decide (dirname p = d) then last p else None)
                  (elements (dirs (fs w) ∪ dom (files (fs w))))), w)
  else (inl (OSError d), w).

(** ** The Compiler *)

(** The collaborators that discover projects, models and analyses:
    [dbt.project.read_project], [Source(project).get_models(paths)] and
    [Source(project).get_analyses(paths)]. *)
Class Discovery : Type := {
  read_project : path -> Project;
  get_models : Project -> list path -> list Model;
  get_analyses : Project -> list path -> list Model
}.

(** Run a computation on the linker, or on the world, inside one that has
    both. *)
Definition on_linker {A} (m : M DiGraph A) : M (DiGraph * World) A := λ s,
  let '(r, g) := m s.1 in (r, (g, s.2)).

Definition on_world {A} (m : M World A) : M (DiGraph * World) A := λ s,
  let '(r, w) := m s.2 in (r, (s.1, w)).

(** Run a computation that uses a linker, starting from the linker [g];
    the linker it leaves is returned with the result. *)
Definition with_linker {A} (g : DiGraph) (m : M (DiGraph * World) A)
    : M World (A * DiGraph) := λ w,
  match m (g, w) with
  | (inl e, (_, w')) => (inl e, w')
  | (inr a, (g', w')) => (inr (a, g'), w')
  end.

Section Compiler.

Context {create_template : CreateTemplate} {discovery : Discovery}.

(** [self.project] *)
Variable self_project : Project.

Definition initialize : M World unit :=
  target_exists ← gets (λ w, path_exists w (target_path self_project));
  (if negb target_exists then makedirs (target_path self_project)
   else mret ());;
  modules_exists ← gets (λ w, path_exists w (modules_path self_project));
  (if negb modules_exists then makedirs (modules_path self_project)
   else mret ()).

Definition dependency_projects : M World (list Project) :=
  objs ← listdir (modules_path self_project);
  w ← gets id;
  mret (omap (λ obj,
          let full_obj := modules_path self_project ++ [obj] in
          if isdir w full_obj
          then Some (read_project (full_obj ++ ["dbt_project.yml"]))
          else None) objs).

Definition model_sources (p : Project) : list Model :=
  get_models p (source_paths p).

Definition analysis_sources (p : Project) : list Model :=
  get_analyses p (analysis_paths p).

Definition conflict_msg (nm : string) : string :=
  "ERROR: Conflicting model found model=" +:+ nm.

(** The loop of [validate_models_unique], from the names seen so far. *)
Fixpoint validate_from (model_names : gset string) (models : list Model)
    : exn + unit :=
  match models with
  | [] => inr ()
  | model :: rest =>
      if decide (name model ∈ model_names)
      then inl (RuntimeError (conflict_msg (name model)))
      else validate_from ({[name model]} ∪ model_names) rest
  end.

Definition validate_models_unique (models : list Model) : exn + unit :=
  validate_from ∅ models.

(** [__write] *)
Definition write (build_filepath : path) (payload : string) : M World unit :=
  let target := target_path self_project ++ build_filepath in
  dir_exists ← gets (λ w, path_exists w (dirname target));
  (if negb dir_exists then makedirs (dirname target) else mret ());;
  print target;;
  write_file target (FileText payload).

(** [do_ref], the closure that [__ref] returns. *)
Definition do_ref (schema : string) (source_model : FQN)
    (all_models : list Model) (args : list string) : M DiGraph string :=
  found ← match args with
          | [other_model_name] =>
              other_model ← lift (find_model_by_name all_models other_model_name None);
              mret (other_model, other_model_name)
          | [other_model_package; other_model_name] =>
              other_model ← lift (find_model_by_name all_models other_model_name
                                    (Some other_model_package));
              mret (other_model, other_model_name)
          | _ => raise (UnboundLocalError "other_model_name")
          end;
  let '(other_model, other_model_name) := found in
  let other_model_name := model_name other_model_name in
  let other_model_fqn := removelast (fqn other_model) ++ [other_model_name] in
  Linker.dependency source_model other_model_fqn;;
  mret (dq +:+ schema +:+ dq +:+ "." +:+ dq +:+ other_model_name +:+ dq).

(** [__ref]: reads the schema of the context, registers the source model
    as a node and returns [do_ref]. *)
Definition make_ref (model : Model) (all_models : list Model)
    : M DiGraph (list string -> M DiGraph string) :=
  raise_if (schema_error self_project);;
  let schema := env_schema self_project in
  let source_model := fqn model in
  Linker.add_node source_model;;
  mret (do_ref schema source_model all_models).

(** [template.render(context)]: the text of the pieces in order, each call
    of [ref] made when its piece is reached. *)
Fixpoint render (ref : list string -> M DiGraph string) (t : list piece)
    : M DiGraph string :=
  match t with
  | [] => mret ""
  | Text s :: rest => out ← render ref rest; mret (s +:+ out)
  | Ref args :: rest =>
      r ← ref args; out ← render ref rest; mret (r +:+ out)
  end.

(** The truth value of a statement: [None] and the empty text are false. *)
Definition stmt_truthy (stmt : option string) : bool :=
  match stmt with
  | None => false
  | Some s => negb (String.eqb s "")
  end.

(** [compile_model]: [None] for Python's [None], [Some b] for a boolean.
    After the test of [enabled], [jinja.get_template] and then
    [project.context()] may raise; the model's node is added only after
    them, in [__ref]. *)
Definition compile_model (model : Model) (models : list Model)
    : M (DiGraph * World) (option bool) :=
  let model_config := get_config model self_project in
  if negb (truthy (dict_get model_config "enabled")) then mret None
  else
    raise_if (template_error model);;
    let template := template model in
    raise_if (context_error self_project);;
    ref ← on_linker (make_ref model models);
    rendered ← on_linker (render ref template);
    let stmt := compile_stmt model rendered self_project create_template in
    if stmt_truthy stmt then
      let build_path := build_path model create_template in
      on_world (write build_path (default "" stmt));;
      mret (Some true)
    else mret (Some false).

(** [__write_graph_file] *)
Definition write_graph_file (linker : DiGraph) : M World unit :=
  let filename := "graph-" +:+ label +:+ ".yml" in
  let graph_path := target_path self_project ++ [filename] in
  write_file graph_path (FileGraph linker).

(** The loop [for model in ...: compiled = compile_model(...); if compiled:
    append]: the truthy results, in order. *)
Fixpoint compile_each (todo : list Model) (models : list Model)
    : M (DiGraph * World) (list bool) :=
  match todo with
  | [] => mret []
  | model :: rest =>
      compiled ← compile_model model models;
      others ← compile_each rest models;
      mret (if default false compiled then true :: others else others)
  end.

Definition compile : M World (nat * nat) :=
  let models := model_sources self_project in
  deps ← dependency_projects;
  let models := models ++ flat_map model_sources deps in
  lift (validate_models_unique models);;
  '(compiled_models, model_linker) ← with_linker Linker.init (compile_each models models);
  write_graph_file model_linker;;
  let analyses := analysis_sources self_project in
  '(compiled_analyses, _) ← with_linker Linker.init (compile_each analyses models);
  mret (length compiled_models, length compiled_analyses).

End Compiler.


(** * Specification vocabulary *)

(** A message names [s] when [s] occurs in it. *)
Definition mentions (msg s : string) : Prop :=
  ∃ pre post, msg = pre +:+ s +:+ post.

(** The candidate [m] matches the terminal name and, when a package
    namespace is supplied, is owned by that package. *)
Definition is_match (nm : string) (ns : option string) (m : Model) : Prop :=
  name m = nm ∧
  match ns with
  | None => True
  | Some pkg => project_name (project m) = pkg
  end.

#[global] Instance is_match_dec nm ns m : Decision (is_match nm ns m).
Proof. unfold is_match. destruct ns; apply _. Defined.

(** The three errors and the success of the resolver, as the spec names
    them. *)
Definition ReferenceNotFound (nm : string) (ns : option string) : exn :=
  RuntimeError (not_found_msg nm (nice_package_name ns)).

Definition AmbiguousReference (nm : string) (ns : option string)
    (found : list Model) : exn :=
  RuntimeError (ambiguous_msg nm (nice_package_name ns) found).


(** The output FQN of a model: its FQN with the last segment replaced by
    the rendered name. *)
Definition output_fqn {create_template : CreateTemplate} (m : Model) : FQN :=
  removelast (fqn m) ++ [model_name (name m)].

(** The text [ref] returns for a model: the rendered name, quoted and
    qualified by the schema. *)
Definition quoted_ref {create_template : CreateTemplate} (schema : string)
    (m : Model) : string :=
  dq +:+ schema +:+ dq +:+ "." +:+ dq +:+ model_name (name m) +:+ dq.

(** The arguments of a call of [ref]: the name, after the package when the
    reference is qualified. *)
Definition ref_args (ns : option string) (nm : string) : list string :=
  match ns with
  | None => [nm]
  | Some pkg => [pkg; nm]
  end.

(** The model's config enables it: [model_config.get('enabled')] is true. *)
Definition enabled (self_project : Project) (m : Model) : bool :=
  truthy (dict_get (get_config m self_project) "enabled").

(** The first exception raised between the test of [enabled] and the
    registration of the model's node, if one is: by the loading of the
    template, by [project.context()] or by the lookup of the schema. *)
Definition load_error (self_project : Project) (m : Model) : option exn :=
  match template_error m with
  | Some e => Some e
  | None =>
      match context_error self_project with
      | Some e => Some e
      | None => schema_error self_project
      end
  end.

(** The number of the models of [todo] for which [compile_model], run on
    them in turn from the state [s], returns [True]. *)
Fixpoint produced {create_template : CreateTemplate} (self_project : Project)
    (todo pool : list Model) (s : DiGraph * World) : nat :=
  match todo with
  | [] => 0
  | m :: rest =>
      match compile_model self_project m pool s with
      | (inr (Some true), s1) => S (produced self_project rest pool s1)
      | (inr _, s1) => produced self_project rest pool s1
      | (inl _, _) => 0
      end
  end.

(** The candidate pool of [compile]: the models of the project, then
    those of each installed project. *)
Definition candidate_pool {discovery : Discovery} (self_project : Project)
    (deps : list Project) : list Model :=
  model_sources self_project ++ flat_map model_sources deps.

(** What [compile] does after the validation of the pool [models]. *)
Definition compile_pool {create_template : CreateTemplate}
    {discovery : Discovery} (self_project : Project) (models : list Model)
    : M World (nat * nat) :=
  '(compiled_models, model_linker) ←
    with_linker Linker.init (compile_each self_project models models);
  write_graph_file self_project model_linker;;
  let analyses := analysis_sources self_project in
  '(compiled_analyses, _) ←
    with_linker Linker.init (compile_each self_project analyses models);
  mret (length compiled_models, length compiled_analyses).

(** The path of the graph file. *)
Definition graph_path {create_template : CreateTemplate}
    (self_project : Project) : path :=
  target_path self_project ++ ["graph-" +:+ label +:+ ".yml"].

(** The template of [s] has a reference that resolves, in the pool, to
    [m]. *)
Definition references (pool : list Model) (s m : Model) : Prop :=
  ∃ ns nm, Ref (ref_args ns nm) ∈ template s
           ∧ find_model_by_name pool nm ns = inr m.

(** Where the nodes of a graph built from the models [todo] come from: a
    node is the FQN of an enabled model, or the output FQN of a model that
    the template of an enabled model references. *)
Definition node_origin {create_template : CreateTemplate}
    (self_project : Project) (todo pool : list Model) (n : FQN) : Prop :=
  (∃ m, m ∈ todo ∧ enabled self_project m = true ∧ n = fqn m)
  ∨ (∃ s m, s ∈ todo ∧ enabled self_project s = true
            ∧ references pool s m ∧ n = output_fqn m).

(** [u] stands before [v] in the ordering. *)
Definition before (u v : FQN) (order : list FQN) : Prop :=
  ∃ i j, order !! i = Some u ∧ order !! j = Some v ∧ i < j.

(** There are one or more edges leading from a relevant node to a relevant
    node through relevant nodes. *)
Inductive reaches (g : DiGraph) (relevant : list FQN) : FQN → FQN → Prop :=
  | reaches_edge u v :
      u ∈ relevant → v ∈ relevant → (u, v) ∈ edges g →
      reaches g relevant u v
  | reaches_step u w v :
      u ∈ relevant → (u, w) ∈ edges g → reaches g relevant w v →
      reaches g relevant u v.

(** The relevant nodes contain a cycle. *)
Definition has_cycle (g : DiGraph) (relevant : list FQN) : Prop :=
  ∃ u, reaches g relevant u u.

(** The end points of the edges are nodes, as in every graph that
    [add_node] and [add_edge] build. *)
Definition graph_wf (g : DiGraph) : Prop :=
  ∀ u v, (u, v) ∈ edges g → u ∈ nodes g ∧ v ∈ nodes g.

(** What holds of the nodes returned so far, between the rounds of the
    ordering: no node twice, relevant nodes only, and each after its
    relevant predecessors. *)
Definition rounds_inv (g : DiGraph) (relevant emitted : list FQN) : Prop :=
  NoDup emitted
  ∧ (∀ v, v ∈ emitted → v ∈ relevant)
  ∧ ∀ i v u, emitted !! i = Some v → u ∈ relevant → (u, v) ∈ edges g →
             ∃ j, j < i ∧ emitted !! j = Some u.

(** A relevant predecessor of [x] that was not returned yet, if there is
    one; [x] itself otherwise. *)
Definition pending_pred (g : DiGraph) (relevant emitted : list FQN)
    (x : FQN) : FQN :=
  match list_find (λ u, (u, x) ∈ edges g ∧ u ∉ emitted) relevant with
  | Some (_, u) => u
  | None => x
  end.

(** One graph extends another: nothing is ever removed. *)
Definition extends (g g' : DiGraph) : Prop :=
  nodes g ⊆ nodes g' ∧ edges g ⊆ edges g'.

(** * A small project

    Two template adapters, a project and a few descriptors, on which the
    statements below are instantiated. *)
Module Example.

(** The adapter that keeps names, and the one that prefixes them. *)
Definition base_template : CreateTemplate :=
  {| model_name := λ base_name, base_name; label := "build" |}.


Definition proj : Project :=
  {| project_name := "shop";
     target_path := ["target"];
     modules_path := ["dbt_modules"];
     source_paths := [["models"]];
     analysis_paths := [["analysis"]];
     env_schema := "analytics";
     context_error := None;
     schema_error := None |}.

Definition pkg : Project :=
  {| project_name := "utils";
     target_path := ["target"];
     modules_path := ["dbt_modules"];
     source_paths := [["models"]];
     analysis_paths := [];
     env_schema := "analytics";
     context_error := None;
     schema_error := None |}.

(** A descriptor of project [p], named [n], with the config [cfg] and the
    template [t]; its statement wraps the rendered text. *)
Definition descriptor (p : Project) (n : string)
    (cfg : gmap string pyval) (t : list piece) : Model :=
  {| name := n;
     fqn := [project_name p; n];
     project := p;
     top_dir := ["models"];
     rel_filepath := [n +:+ ".sql"];
     template := t;
     template_error := None;
     repr := "<Model " +:+ project_name p +:+ "." +:+ n +:+ ">";
     get_config := λ _, cfg;
     compile_stmt := λ rendered _ _, Some ("create table as " +:+ rendered);
     build_path := λ ct, [@model_name ct n +:+ ".sql"] |}.

Definition on : gmap string pyval := {["enabled" := PyBool true]}.
Definition off : gmap string pyval := {["enabled" := PyBool false]}.

Definition orders : Model :=
  descriptor proj "orders" on [Text "select * from raw_orders"].

Definition customers : Model :=
  descriptor proj "customers" on
    [Text "select * from "; Ref ["orders"]; Text " join raw_customers"].

Definition legacy : Model :=
  descriptor proj "legacy" off [Text "select 1"].

Definition report : Model :=
  descriptor proj "report" on [Text "select * from "; Ref ["legacy"]].

Definition unset : Model :=
  descriptor proj "unset" ∅ [Text "select * from "; Ref ["missing"]].

(** An enabled model whose template file is missing. *)
Definition broken : Model :=
  {| name := "broken";
     fqn := ["shop"; "broken"];
     project := proj;
     top_dir := ["models"];
     rel_filepath := ["broken.sql"];
     template := [];
     template_error := Some (TemplateNotFound ["broken.sql"]);
     repr := "<Model shop.broken>";
     get_config := λ _, on;
     compile_stmt := λ rendered _ _, Some rendered;
     build_path := λ _, ["broken.sql"] |}.

(** An enabled model whose statement is not emitted. *)
Definition skipped : Model :=
  {| name := "skipped";
     fqn := ["shop"; "skipped"];
     project := proj;
     top_dir := ["models"];
     rel_filepath := ["skipped.sql"];
     template := [Text "select 1"];
     template_error := None;
     repr := "<Model shop.skipped>";
     get_config := λ _, on;
     compile_stmt := λ _ _ _, None;
     build_path := λ _, ["skipped.sql"] |}.

Definition pkg_orders : Model :=
  descriptor pkg "orders" on [Text "select 2"].

Definition found_nothing : Discovery :=
  {| read_project := λ _, pkg;
     get_models := λ _ _, [];
     get_analyses := λ _ _, [] |}.

(** The project's models are [report] and [legacy]; nothing is installed. *)
Definition found_legacy : Discovery :=
  {| read_project := λ _, pkg;
     get_models := λ p _,
       if bool_decide (project_name p = "shop") then [report; legacy] else [];
     get_analyses := λ _ _, [] |}.

(** The project has [customers] and [orders], as has the installed
    package [utils] an [orders]. *)
Definition found_clash : Discovery :=
  {| read_project := λ _, pkg;
     get_models := λ p _,
       if bool_decide (project_name p = "shop") then [customers; orders]
       else [pkg_orders];
     get_analyses := λ _ _, [] |}.

Definition no_output : list path := [].

(** Nothing on disk. *)
Definition empty_world : World :=
  {| fs := {| dirs := ∅; files := ∅ |}; stdout := no_output |}.

(** The two directories of the project exist and are empty. *)
Definition ready_world : World :=
  {| fs := {| dirs := {[ ["target"]; ["dbt_modules"] ]}; files := ∅ |};
     stdout := no_output |}.

(** The package [utils] is installed under the modules directory. *)
Definition installed_world : World :=
  {| fs := {| dirs := {[ ["target"]; ["dbt_modules"]; ["dbt_modules"; "utils"] ]};
              files := ∅ |};
     stdout := no_output |}.

End Example.
(** * Properties *)

(** ** Strings and messages *)

Lemma string_app_assoc (a b c : string) : (a +:+ b) +:+ c = a +:+ b +:+ c.
Proof.
  induction a as [|ch a IH]; [done|].
  change (String ch ((a +:+ b) +:+ c) = String ch (a +:+ b +:+ c)).
  by f_equal.
Qed.

Lemma mentions_here (pre s post : string) : mentions (pre +:+ s +:+ post) s.
Proof. by exists pre, post. Qed.

Lemma mentions_later (pre msg s : string) :
  mentions msg s → mentions (pre +:+ msg) s.
Proof.
  intros (a & b & ->). exists (pre +:+ a), b. by rewrite string_app_assoc.
Qed.

Lemma mentions_end (pre s : string) : mentions (pre +:+ s) s.
Proof.
  exists pre, "". f_equal. induction s as [|c s IH]; [done|].
  change (String c s = String c (s +:+ "")). by f_equal.
Qed.

Create HintDb mentions.

#[local] Hint Resolve mentions_here mentions_later mentions_end : mentions.

(** ** The reference resolver *)

Lemma matches_is_match nm ns m : matches nm ns m = true ↔ is_match nm ns m.
Proof.
  unfold matches, is_match. case_bool_decide as Hn.
  - destruct ns as [pkg|]; [|tauto].
    rewrite bool_decide_eq_true. split; [by intros -> | by intros [_ ->]].
  - split; [done|]. by intros [? _].
Qed.

Lemma found_filter nm ns (pool : list Model) :
  filter (λ m, matches nm ns m = true) pool = filter (is_match nm ns) pool.
Proof.
  induction pool as [|m pool IH]; [done|].
  rewrite !filter_cons, IH.
  destruct (decide (matches nm ns m = true)) as [H|H], (decide (is_match nm ns m)) as [H'|H'];
    try done; exfalso; by rewrite matches_is_match in H.
Qed.

Lemma not_found_msg_mentions nm ns :
  mentions (not_found_msg nm ns) nm ∧ mentions (not_found_msg nm ns) ns.
Proof. unfold not_found_msg. split; auto 10 with mentions. Qed.

Lemma ambiguous_msg_mentions nm ns found :
  mentions (ambiguous_msg nm ns found) nm
  ∧ mentions (ambiguous_msg nm ns found) ns
  ∧ mentions (ambiguous_msg nm ns found) (pretty (length found))
  ∧ mentions (ambiguous_msg nm ns found) (repr_list found).
Proof. unfold ambiguous_msg. repeat split; auto 12 with mentions. Qed.

(** C1. The resolver scans the pool for the candidates whose name is the
    target and, when a package namespace is supplied, whose project has that
    name. With no such candidate it raises the not-found error, whose
    message names the target and the namespace, ANY when none was supplied.
    With more than one it raises the ambiguity error, whose message names
    the target, the namespace, the number of matches and the matching
    candidates. With exactly one it returns that candidate. *)
Theorem find_model_by_name_outcomes (pool : list Model) (nm : string)
    (ns : option string) :
  let found := filter (is_match nm ns) pool in
  nice_package_name None = "ANY"
  ∧ (∀ pkg, nice_package_name (Some pkg) = pkg)
  ∧ ((∀ m, m ∈ pool → ¬ is_match nm ns m) →
       ∃ msg, find_model_by_name pool nm ns = inl (RuntimeError msg)
         ∧ RuntimeError msg = ReferenceNotFound nm ns
         ∧ mentions msg nm ∧ mentions msg (nice_package_name ns))
  ∧ (1 < length found →
       ∃ msg, find_model_by_name pool nm ns = inl (RuntimeError msg)
         ∧ RuntimeError msg = AmbiguousReference nm ns found
         ∧ mentions msg nm ∧ mentions msg (nice_package_name ns)
         ∧ mentions msg (pretty (length found))
         ∧ mentions msg (repr_list found))
  ∧ (∀ m, found = [m] →
       find_model_by_name pool nm ns = inr m ∧ m ∈ pool ∧ is_match nm ns m).
Proof.
  intros found. split; [done|]. split; [done|].
  unfold find_model_by_name. rewrite found_filter. fold found.
  split; [|split].
  - intros Hnone.
    assert (found = []) as ->.
    { apply elem_of_nil_inv. intros m Hm.
      apply list_elem_of_filter in Hm as [Hm Hin]. by apply (Hnone m). }
    eexists. split; [done|]. split; [done|]. apply not_found_msg_mentions.
  - intros Hlen. destruct found as [|m1 [|m2 rest]] eqn:E; simpl in Hlen; try lia.
    eexists. split; [done|]. split; [done|].
    apply ambiguous_msg_mentions.
  - intros m Hm. rewrite Hm. split; [done|].
    assert (m ∈ found) as Hin by (rewrite Hm; set_solver).
    apply list_elem_of_filter in Hin. tauto.
Qed.

(** ** The monad and the linker *)

Lemma bind_inr {S A B} (m : M S A) (k : A → M S B) s a s' :
  m s = (inr a, s') → (m ≫= k) s = k a s'.
Proof. unfold mbind, M_bind. by intros ->. Qed.

Lemma bind_inl {S A B} (m : M S A) (k : A → M S B) s e s' :
  m s = (inl e, s') → (m ≫= k) s = (inl e, s').
Proof. unfold mbind, M_bind. by intros ->. Qed.

#[local] Instance extends_refl : Reflexive extends.
Proof. by intros g. Qed.

#[local] Instance extends_trans : Transitive extends.
Proof. intros g1 g2 g3 [??] [??]. split; set_solver. Qed.

Lemma dependency_run node1 node2 g :
  Linker.dependency node1 node2 g =
    (inr (), {| nodes := {[node1; node2]} ∪ nodes g;
                edges := {[(node2, node1)]} ∪ edges g |}).
Proof.
  unfold Linker.dependency, modify, mbind, M_bind, nx_add_edge, nx_add_node.
  simpl. do 2 f_equal. set_solver.
Qed.

Section compiler_facts.

Context {create_template : CreateTemplate} {discovery : Discovery}.
Variable self_project : Project.

(** A call of [ref] that resolves to [m]: the graph gets the two end points
    and the edge, and the quoted reference is returned. *)
Lemma do_ref_resolved schema source all_models ns nm m g :
  find_model_by_name all_models nm ns = inr m →
  do_ref schema source all_models (ref_args ns nm) g =
    (inr (dq +:+ schema +:+ dq +:+ "." +:+ dq +:+ model_name nm +:+ dq),
     {| nodes := {[source; removelast (fqn m) ++ [model_name nm]]} ∪ nodes g;
        edges := {[(removelast (fqn m) ++ [model_name nm], source)]} ∪ edges g |}).
Proof.
  intros Hfind. unfold do_ref.
  destruct ns as [pkg|]; simpl;
    unfold mbind at 1, M_bind at 1; unfold mbind at 2, M_bind at 2;
    unfold lift; rewrite Hfind; simpl;
    unfold mbind, M_bind, mret, M_ret, nx_add_edge, nx_add_node; simpl;
    do 2 f_equal; set_solver.
Qed.

End compiler_facts.

Section compiler_properties.

Context {create_template : CreateTemplate} {discovery : Discovery}.
Variable self_project : Project.

Lemma find_model_by_name_inr pool nm ns m :
  find_model_by_name pool nm ns = inr m → m ∈ pool ∧ is_match nm ns m.
Proof.
  unfold find_model_by_name. rewrite found_filter.
  destruct (filter _ pool) as [|m1 [|m2 rest]] eqn:E; try done.
  intros [= ->].
  assert (m ∈ filter (is_match nm ns) pool) as Hin by (rewrite E; set_solver).
  apply list_elem_of_filter in Hin. tauto.
Qed.

Lemma do_ref_extends schema source all_models args g :
  extends g (do_ref schema source all_models args g).2.
Proof.
  assert (∀ ns nm, extends g (do_ref schema source all_models (ref_args ns nm) g).2) as Hres.
  { intros ns nm. destruct (find_model_by_name all_models nm ns) as [e|m] eqn:Hfind.
    - destruct ns; unfold do_ref; simpl;
        unfold mbind at 1, M_bind at 1; unfold mbind at 2, M_bind at 2;
        unfold lift; rewrite Hfind; done.
    - rewrite (do_ref_resolved _ _ _ _ _ _ _ Hfind). split; simpl; set_solver. }
  destruct args as [|a [|b [|c rest]]].
  - done.
  - apply (Hres None a).
  - apply (Hres (Some a) b).
  - done.
Qed.

Lemma render_extends (ref : list string → M DiGraph string) t g :
  (∀ args g0, extends g0 (ref args g0).2) →
  extends g (render ref t g).2.
Proof.
  intros Href. revert g. induction t as [|[s|args] t IH]; intros g; simpl.
  - done.
  - unfold mbind, M_bind. specialize (IH g).
    by destruct (render ref t g) as [[e|out] g'].
  - unfold mbind at 1, M_bind at 1. specialize (Href args g).
    destruct (ref args g) as [[e|r] g1]; [done|]. simpl in Href.
    unfold mbind, M_bind. specialize (IH g1).
    destruct (render ref t g1) as [[e|out] g']; simpl in *; by etrans.
Qed.

(** The outcome of [compile_model] on a model whose [enabled] is not true:
    no result, and the same graph and world. *)
Lemma compile_model_not_enabled model models s :
  enabled self_project model = false →
  compile_model self_project model models s = (inr None, s).
Proof. unfold enabled, compile_model. by intros ->. Qed.

(** An enabled model whose template or context does not load: the
    exception is raised and nothing has changed. *)
Lemma compile_model_unloaded model models g w e :
  enabled self_project model = true →
  load_error self_project model = Some e →
  compile_model self_project model models (g, w) = (inl e, (g, w)).
Proof.
  unfold enabled, compile_model, load_error. intros -> Hload. simpl.
  unfold mbind at 1, M_bind at 1.
  destruct (template_error model) as [e1|]; simpl; [congruence|].
  unfold mbind at 1, M_bind at 1.
  destruct (context_error self_project) as [e2|]; simpl; [congruence|].
  unfold mbind at 1, M_bind at 1. unfold on_linker at 1, make_ref. simpl.
  unfold mbind at 1, M_bind at 1. rewrite Hload. done.
Qed.

(** The outcome of [compile_model] on an enabled model whose template and
    context load, in terms of the rendering from the graph with the model's
    node. *)
Lemma compile_model_enabled model models g w :
  enabled self_project model = true →
  load_error self_project model = None →
  compile_model self_project model models (g, w) =
    match render (do_ref (env_schema self_project) (fqn model) models)
                 (template model) (nx_add_node (fqn model) g) with
    | (inl e, g') => (inl e, (g', w))
    | (inr rendered, g') =>
        let stmt := compile_stmt model rendered self_project create_template in
        if stmt_truthy stmt then
          match write self_project (build_path model create_template)
                      (default "" stmt) w with
          | (inl e, w') => (inl e, (g', w'))
          | (inr _, w') => (inr (Some true), (g', w'))
          end
        else (inr (Some false), (g', w))
    end.
Proof.
  unfold enabled, compile_model, load_error. intros -> Hload. simpl.
  destruct (template_error model) as [e1|]; [done|].
  destruct (context_error self_project) as [e2|]; [done|].
  unfold mbind at 1, M_bind at 1. simpl.
  unfold mbind at 1, M_bind at 1. simpl.
  unfold mbind at 1, M_bind at 1. unfold on_linker at 1, make_ref. simpl.
  unfold mbind at 1, M_bind at 1. rewrite Hload. simpl.
  unfold mbind at 1, M_bind at 1. unfold on_linker. simpl.
  destruct (render _ _ _) as [[e|rendered] g']; [done|]. simpl.
  destruct (stmt_truthy _); [|done].
  unfold mbind, M_bind, on_world. simpl.
  by destruct (write _ _ _ w) as [[e|[]] w'].
Qed.

Lemma compile_model_extends model models g w :
  extends g (compile_model self_project model models (g, w)).2.1.
Proof.
  destruct (enabled self_project model) eqn:En;
    [destruct (load_error self_project model) as [e0|] eqn:Hload|].
  - by rewrite (compile_model_unloaded _ _ _ _ e0).
  - rewrite compile_model_enabled by done.
    pose proof (render_extends (do_ref (env_schema self_project) (fqn model) models)
      (template model) (nx_add_node (fqn model) g)
      (do_ref_extends _ _ _)) as Hext.
    assert (extends g (nx_add_node (fqn model) g)) as Hadd
      by (split; simpl; set_solver).
    destruct (render _ _ _) as [[e|rendered] g']; simpl in *; [by etrans|].
    destruct (stmt_truthy _); simpl; [|by etrans].
    destruct (write _ _ _ w) as [[e|[]] w']; simpl; by etrans.
  - by rewrite compile_model_not_enabled.
Qed.

Lemma compile_model_registers_node model models g w :
  enabled self_project model = true →
  load_error self_project model = None →
  fqn model ∈ nodes (compile_model self_project model models (g, w)).2.1.
Proof.
  intros En Hload. rewrite compile_model_enabled by done.
  pose proof (render_extends (do_ref (env_schema self_project) (fqn model) models)
    (template model) (nx_add_node (fqn model) g)
    (do_ref_extends _ _ _)) as [Hn _].
  assert (fqn model ∈ nodes (nx_add_node (fqn model) g)) as Hadd
    by (simpl; set_solver).
  destruct (render _ _ _) as [[e|rendered] g']; simpl in *; [set_solver|].
  destruct (stmt_truthy _); simpl; [|set_solver].
  destruct (write _ _ _ w) as [[e|[]] w']; simpl; set_solver.
Qed.

End compiler_properties.

Lemma string_app_empty (s : string) : s +:+ "" = s.
Proof.
  induction s as [|c s IH]; [done|].
  change (String c (s +:+ "") = String c s). by f_equal.
Qed.

Section claims_on_compile_model.

Context {create_template : CreateTemplate} {discovery : Discovery}.
Variable self_project : Project.


(** C4, as the code has it. For an enabled model whose template and
    context load, so that the resolver is constructed, constructing the
    resolver adds the model's FQN to the graph's nodes before any call of
    [ref], and whatever happens next (rendering with or without calls of
    [ref], a failing call, a statement that is not emitted, a write), the
    FQN is a node of the graph that [compile_model] leaves, which keeps
    everything the graph had. When the template or the context does not
    load, the exception is raised before the resolver is constructed and the
    graph is as it was. *)
Theorem enabled_model_is_a_node (model : Model) (models : list Model)
    (g : DiGraph) (w : World) :
  enabled self_project model = true →
  (load_error self_project model = None →
     make_ref self_project model models g
       = (inr (do_ref (env_schema self_project) (fqn model) models),
          nx_add_node (fqn model) g)
     ∧ fqn model ∈ nodes (nx_add_node (fqn model) g)
     ∧ let out := compile_model self_project model models (g, w) in
       fqn model ∈ nodes out.2.1 ∧ extends g out.2.1)
  ∧ (∀ e, load_error self_project model = Some e →
       compile_model self_project model models (g, w) = (inl e, (g, w))).
Proof.
  intros En. split.
  - intros Hload. split.
    { unfold make_ref, mbind at 1, M_bind at 1.
      unfold load_error in Hload.
      destruct (template_error model); [done|].
      destruct (context_error self_project); [done|].
      by rewrite Hload. }
    split; [simpl; set_solver|].
    split; [by apply compile_model_registers_node | apply compile_model_extends].
  - intros e Hload. by apply compile_model_unloaded.
Qed.

(** C5. For a model whose config has [enabled] false, [compile_model]
    returns [None] and leaves the graph and the world as they were: no node,
    no edge, no file, no directory and no output line, whatever the template
    and the pool are. *)
Theorem disabled_model_is_skipped (model : Model) (models : list Model)
    (g : DiGraph) (w : World) :
  get_config model self_project !! "enabled" = Some (PyBool false) →
  compile_model self_project model models (g, w) = (inr None, (g, w)).
Proof.
  intros Hcfg. apply compile_model_not_enabled.
  unfold enabled, dict_get. by rewrite Hcfg.
Qed.


(** C10. For a model whose config has no [enabled] key, [get] yields
    [None], which is false: [compile_model] returns [None] and leaves the
    graph and the world as they were, as for a model disabled explicitly. *)
Theorem model_without_enabled_is_skipped (model : Model)
    (models : list Model) (g : DiGraph) (w : World) :
  get_config model self_project !! "enabled" = None →
  dict_get (get_config model self_project) "enabled" = PyNone
  ∧ truthy PyNone = false
  ∧ compile_model self_project model models (g, w) = (inr None, (g, w)).
Proof.
  intros Hcfg.
  assert (dict_get (get_config model self_project) "enabled" = PyNone) as Hget
    by (unfold dict_get; by rewrite Hcfg).
  split; [done|]. split; [done|].
  apply compile_model_not_enabled. unfold enabled. by rewrite Hget.
Qed.

End claims_on_compile_model.

(** ** The file system *)

Lemma prefixes_self (p : path) : p ≠ [] → p ∈ prefixes p.
Proof.
  induction p as [|x p IH]; [done|]. intros _. simpl.
  destruct p as [|y p]; [set_solver|].
  apply elem_of_cons. right. apply list_elem_of_fmap. exists (y :: p).
  split; [done|]. by apply IH.
Qed.

Lemma makedirs_ok (p : path) (w : World) :
  p ≠ [] → path_exists w p = false →
  (∀ q, q ∈ prefixes p → isfile w q = false) →
  makedirs p w
    = (inr (), set_dirs (list_to_set (prefixes p) ∪ dirs (fs w)) w).
Proof.
  intros Hp Hex Hfiles. unfold makedirs.
  rewrite bool_decide_eq_false_2 by done. rewrite Hex. simpl.
  destruct (existsb (isfile w) (prefixes p)) eqn:E; [|done].
  apply existsb_exists in E as (q & Hq & Hfile).
  rewrite Hfiles in Hfile; [done|]. by apply list_elem_of_In.
Qed.

Lemma isdir_set_dirs d w p : isdir (set_dirs d w) p = bool_decide (p ∈ d).
Proof. done. Qed.

Lemma isfile_set_dirs d w p : isfile (set_dirs d w) p = isfile w p.
Proof. done. Qed.

(** With no file at the path or above it, a path that exists is a
    directory. *)
Lemma exists_isdir w p :
  isfile w p = false → path_exists w p = true → isdir w p = true.
Proof. unfold path_exists. intros ->. by rewrite orb_false_r. Qed.

(** [dependency_projects] reads the file system and changes nothing; it
    raises when the modules directory is missing. *)
Lemma dependency_projects_world {discovery : Discovery} p w :
  (dependency_projects p w).2 = w.
Proof.
  unfold dependency_projects, listdir, mbind, M_bind.
  by destruct (isdir w (modules_path p)).
Qed.

Lemma dependency_projects_missing {discovery : Discovery} p w :
  isdir w (modules_path p) = false →
  dependency_projects p w = (inl (OSError (modules_path p)), w).
Proof.
  intros H. unfold dependency_projects, listdir, mbind, M_bind. by rewrite H.
Qed.

Lemma compile_unfold {create_template : CreateTemplate}
    {discovery : Discovery} p w :
  compile p w =
    match dependency_projects p w with
    | (inl e, w') => (inl e, w')
    | (inr deps, w') =>
        match validate_models_unique (candidate_pool p deps) with
        | inl e => (inl e, w')
        | inr _ => compile_pool p (candidate_pool p deps) w'
        end
    end.
Proof.
  unfold compile. unfold mbind at 1, M_bind at 1.
  destruct (dependency_projects p w) as [[e|deps] w']; [done|].
  unfold mbind at 1, M_bind at 1, lift. fold (candidate_pool p deps).
  by destruct (validate_models_unique _) as [e|[]].
Qed.

Lemma initialize_unfold p w :
  initialize p w =
    match (if path_exists w (target_path p) then (inr (), w)
           else makedirs (target_path p) w) with
    | (inl e, w1) => (inl e, w1)
    | (inr _, w1) =>
        if path_exists w1 (modules_path p) then (inr (), w1)
        else makedirs (modules_path p) w1
    end.
Proof.
  unfold initialize, mbind, M_bind, gets. simpl.
  destruct (path_exists w (target_path p)); simpl.
  - by destruct (path_exists w (modules_path p)).
  - destruct (makedirs (target_path p) w) as [[e|[]] w1]; [done|].
    by destruct (path_exists w1 (modules_path p)).
Qed.

(** Creating a directory unless the path exists: with no file at the path
    or above it, the path is a directory afterwards, and only directories
    above it were added. *)
Lemma ensure_directory (p : path) (w : World) :
  p ≠ [] → (∀ q, q ∈ prefixes p → isfile w q = false) →
  ∃ w', (if path_exists w p then (inr (), w) else makedirs p w) = (inr (), w')
    ∧ isdir w' p = true
    ∧ files (fs w') = files (fs w)
    ∧ stdout w' = stdout w
    ∧ dirs (fs w) ⊆ dirs (fs w')
    ∧ dirs (fs w') ⊆ dirs (fs w) ∪ list_to_set (prefixes p).
Proof.
  intros Hp Hfiles. destruct (path_exists w p) eqn:Hex.
  - exists w. split; [done|]. split; [|set_solver].
    apply exists_isdir; [|done]. apply Hfiles. by apply prefixes_self.
  - eexists. split; [by apply makedirs_ok|]. simpl.
    split; [|set_solver]. apply bool_decide_eq_true.
    apply elem_of_union_l, elem_of_list_to_set. by apply prefixes_self.
Qed.

Section claims_on_directories.

Context {create_template : CreateTemplate} {discovery : Discovery}.

(** X3. [initialize], a method of its own that
    [compile] does not call, makes the target and modules paths directories
    when no file is in the way, creating them and the missing directories
    above them and nothing else. [compile] creates neither: when the modules
    directory is missing it raises the error of [os.listdir] and leaves the
    world as it found it. *)
Theorem initialize_creates_directories (p : Project) (w : World) :
  target_path p ≠ [] → modules_path p ≠ [] →
  (∀ q, q ∈ prefixes (target_path p) ++ prefixes (modules_path p) →
        isfile w q = false) →
  (∃ w', initialize p w = (inr (), w')
     ∧ isdir w' (target_path p) = true
     ∧ isdir w' (modules_path p) = true
     ∧ files (fs w') = files (fs w)
     ∧ stdout w' = stdout w
     ∧ dirs (fs w) ⊆ dirs (fs w')
     ∧ dirs (fs w') ⊆ dirs (fs w)
         ∪ list_to_set (prefixes (target_path p) ++ prefixes (modules_path p)))
  ∧ (isdir w (modules_path p) = false →
       compile p w = (inl (OSError (modules_path p)), w)).
Proof.
  intros Ht Hm Hfiles. split.
  - rewrite initialize_unfold.
    destruct (ensure_directory (target_path p) w Ht)
      as (w1 & -> & Hd1 & Hf1 & Ho1 & Hsub1 & Hsup1).
    { intros q Hq. apply Hfiles. set_solver. }
    destruct (ensure_directory (modules_path p) w1 Hm)
      as (w2 & -> & Hd2 & Hf2 & Ho2 & Hsub2 & Hsup2).
    { intros q Hq. unfold isfile. rewrite Hf1. apply Hfiles. set_solver. }
    exists w2. split; [done|].
    apply bool_decide_eq_true in Hd1. apply bool_decide_eq_true in Hd2.
    split; [apply bool_decide_eq_true; set_solver|].
    split; [by apply bool_decide_eq_true|].
    split; [congruence|]. split; [congruence|].
    split; [clear -Hsub1 Hsub2; set_solver|].
    rewrite list_to_set_app_L. clear -Hsup1 Hsup2. set_solver.
  - intros Hmissing. rewrite compile_unfold.
    by rewrite dependency_projects_missing.
Qed.

End claims_on_directories.

(** ** Validation of the names *)

Lemma validate_from_inr seen models :
  validate_from seen models = inr () ↔
  NoDup (name <$> models) ∧ ∀ m, m ∈ models → name m ∉ seen.
Proof.
  revert seen. induction models as [|model rest IH]; intros seen; simpl.
  - split; [|done]. intros _. split; [constructor|]. by intros m ?%elem_of_nil.
  - destruct (decide (name model ∈ seen)) as [Hin|Hout].
    + split; [done|]. intros [_ H]. exfalso. apply (H model); set_solver.
    + rewrite IH, NoDup_cons. split.
      * intros [Hnd Hrest]. split; [split; [|done]|].
        -- intros (m & Hm & Hin)%list_elem_of_fmap.
           apply (Hrest m Hin). set_solver.
        -- intros m [->|Hin]%elem_of_cons; [done|].
           specialize (Hrest m Hin). set_solver.
      * intros [[Hfresh Hnd] Hall]. split; [done|].
        intros m Hin. apply not_elem_of_union. split.
        -- intros Heq%elem_of_singleton. apply Hfresh. rewrite <- Heq.
           apply list_elem_of_fmap. eauto.
        -- apply Hall. set_solver.
Qed.

Lemma validate_from_inl seen models e :
  validate_from seen models = inl e →
  ∃ before model after,
    models = before ++ model :: after
    ∧ validate_from seen before = inr ()
    ∧ (name model ∈ seen ∨ name model ∈ (name <$> before))
    ∧ e = RuntimeError (conflict_msg (name model)).
Proof.
  revert seen. induction models as [|model rest IH]; intros seen; simpl; [done|].
  destruct (decide (name model ∈ seen)) as [Hin|Hout].
  - intros [= <-]. exists [], model, rest. by eauto.
  - intros (before & m & after & -> & Hok & Hdup & ->)%IH.
    exists (model :: before), m, after. split; [done|]. simpl.
    rewrite decide_False by done. split; [done|]. split; [|done].
    rewrite elem_of_cons.
    destruct Hdup as [[Heq%elem_of_singleton|Hs]%elem_of_union|Hb]; auto.
Qed.

Section claims_on_validation.

Context {create_template : CreateTemplate} {discovery : Discovery}.

(** X2. Let the pool be discovered: the models of the project, then those
    of the projects installed one level below the modules directory. When
    two models of the pool share a name, [compile] raises the conflict
    error, which names the first model whose name was already taken, and the
    world is as it was: no model was compiled, no file, directory or output
    line written. When the names are distinct, the validation passes and
    [compile] goes on with the compilation of the pool. *)
Theorem compile_validates_names (p : Project) (w : World)
    (deps : list Project) :
  (dependency_projects p w).1 = inr deps →
  let models := candidate_pool p deps in
  (¬ NoDup (name <$> models) →
     ∃ before model after,
       models = before ++ model :: after
       ∧ NoDup (name <$> before)
       ∧ name model ∈ (name <$> before)
       ∧ compile p w = (inl (RuntimeError (conflict_msg (name model))), w)
       ∧ mentions (conflict_msg (name model)) (name model))
  ∧ (NoDup (name <$> models) →
       validate_models_unique models = inr ()
       ∧ compile p w = compile_pool p models w).
Proof.
  intros Hdeps models.
  assert (dependency_projects p w = (inr deps, w)) as Hrun.
  { pose proof (dependency_projects_world p w) as Hw.
    destruct (dependency_projects p w) as [r w']. simpl in *. congruence. }
  rewrite compile_unfold, Hrun. fold models. unfold validate_models_unique.
  split.
  - intros Hdup. destruct (validate_from ∅ models) as [e|[]] eqn:Hval.
    + apply validate_from_inl in Hval
        as (before & model & after & Heq & Hok & Hin & ->).
      apply validate_from_inr in Hok as [Hnd _].
      exists before, model, after. repeat split; try done.
      * destruct Hin as [Hin|Hin]; [set_solver|done].
      * apply mentions_end.
    + apply validate_from_inr in Hval as [Hnd _]. done.
  - intros Hnd.
    assert (validate_from ∅ models = inr ()) as ->; [|done].
    apply validate_from_inr. split; [done|]. set_solver.
Qed.

End claims_on_validation.

(** ** Where nodes come from *)

Section node_origins.

Context {create_template : CreateTemplate}.
Variable self_project : Project.

(** The arguments of a call are those of an unqualified or of a qualified
    reference, or the call raises and changes nothing. *)
Lemma do_ref_shape schema source pool args g :
  (∃ ns nm, args = ref_args ns nm)
  ∨ do_ref schema source pool args g = (inl (UnboundLocalError "other_model_name"), g).
Proof.
  destruct args as [|a [|b [|c rest]]].
  - by right.
  - left. by exists None, a.
  - left. by exists (Some a), b.
  - by right.
Qed.

Lemma do_ref_unresolved schema source pool ns nm e g :
  find_model_by_name pool nm ns = inl e →
  do_ref schema source pool (ref_args ns nm) g = (inl e, g).
Proof.
  intros Hfind. destruct ns; unfold do_ref; simpl;
    unfold mbind at 1, M_bind at 1; unfold mbind at 2, M_bind at 2;
    unfold lift; by rewrite Hfind.
Qed.

Lemma do_ref_nodes schema source pool args g n :
  n ∈ nodes (do_ref schema source pool args g).2 →
  n ∈ nodes g ∨ n = source
  ∨ ∃ ns nm m, args = ref_args ns nm
               ∧ find_model_by_name pool nm ns = inr m ∧ n = output_fqn m.
Proof.
  destruct (do_ref_shape schema source pool args g) as [(ns & nm & ->) | ->];
    [|by left].
  destruct (find_model_by_name pool nm ns) as [e|m] eqn:Hfind.
  - rewrite (do_ref_unresolved _ _ _ _ _ _ _ Hfind). by left.
  - rewrite (do_ref_resolved _ _ _ _ _ _ _ Hfind). simpl.
    destruct (find_model_by_name_inr _ _ _ _ Hfind) as [_ [<- _]].
    rewrite !elem_of_union, elem_of_singleton. intros [[-> | Hn] | Hn]; auto.
    apply elem_of_singleton in Hn. right. right. by exists ns, (name m), m.
Qed.

Lemma render_nodes schema source pool t g n :
  n ∈ nodes (render (do_ref schema source pool) t g).2 →
  n ∈ nodes g ∨ n = source
  ∨ ∃ ns nm m, Ref (ref_args ns nm) ∈ t
               ∧ find_model_by_name pool nm ns = inr m ∧ n = output_fqn m.
Proof.
  revert g. induction t as [|[s|args] t IH]; intros g; simpl.
  - by left.
  - unfold mbind, M_bind. specialize (IH g).
    destruct (render _ t g) as [[e|out] g']; simpl in *;
      intros [?|[?|(ns & nm & m & ? & ? & ?)]]%IH; auto;
      right; right; exists ns, nm, m; by rewrite elem_of_cons; auto.
  - unfold mbind at 1, M_bind at 1.
    pose proof (do_ref_nodes schema source pool args g n) as Hcall.
    destruct (do_ref schema source pool args g) as [[e|r] g1]; simpl in *.
    + intros [?|[?|(ns & nm & m & -> & ? & ?)]]%Hcall; auto.
      right; right; exists ns, nm, m. by rewrite elem_of_cons; auto.
    + unfold mbind, M_bind. specialize (IH g1).
      destruct (render _ t g1) as [[e|out] g']; simpl in *;
        (intros [Hn|[?|(ns & nm & m & ? & ? & ?)]]%IH;
         [ apply Hcall in Hn as [?|[?|(ns & nm & m & -> & ? & ?)]]; auto
         | auto | ];
         right; right; exists ns, nm, m; by rewrite elem_of_cons; auto).
Qed.

Lemma compile_model_nodes model pool g w n :
  n ∈ nodes (compile_model self_project model pool (g, w)).2.1 →
  n ∈ nodes g
  ∨ enabled self_project model = true
    ∧ (n = fqn model ∨ ∃ m, references pool model m ∧ n = output_fqn m).
Proof.
  destruct (enabled self_project model) eqn:En;
    [destruct (load_error self_project model) as [e0|] eqn:Hload|].
  - rewrite (compile_model_unloaded _ _ _ _ _ e0) by done. by left.
  - rewrite compile_model_enabled by done.
    pose proof (render_nodes (env_schema self_project) (fqn model) pool
                  (template model) (nx_add_node (fqn model) g) n) as Hr.
    assert (n ∈ nodes (render (do_ref (env_schema self_project) (fqn model) pool)
                         (template model) (nx_add_node (fqn model) g)).2 →
            n ∈ nodes g ∨ true = true ∧
              (n = fqn model ∨ ∃ m, references pool model m ∧ n = output_fqn m))
      as Hgoal.
    { intros [Hn | [-> | (ns & nm & m & ? & ? & ->)]]%Hr.
      - simpl in Hn. apply elem_of_union in Hn as [->%elem_of_singleton | ?]; auto.
      - auto.
      - right. split; [done|]. right. exists m. split; [|done]. by exists ns, nm. }
    destruct (render _ _ _) as [[e|rendered] g']; simpl in *; [done|].
    destruct (stmt_truthy _); simpl; [|done].
    by destruct (write _ _ _ w) as [[e|[]] w'].
  - rewrite compile_model_not_enabled by done. by left.
Qed.

Lemma compile_each_nodes todo pool g w n :
  n ∈ nodes (compile_each self_project todo pool (g, w)).2.1 →
  n ∈ nodes g ∨ node_origin self_project todo pool n.
Proof.
  revert g w. induction todo as [|model rest IH]; intros g w; simpl; [by left|].
  unfold mbind at 1, M_bind at 1.
  pose proof (compile_model_nodes model pool g w n) as Hm.
  destruct (compile_model self_project model pool (g, w)) as [[e|r] [g1 w1]];
    simpl in *.
  - intros [?|[En Hn]]%Hm; [by left|]. right.
    destruct Hn as [-> | (m & ? & ->)]; [left|right].
    + exists model. by rewrite elem_of_cons; auto.
    + exists model, m. by rewrite elem_of_cons; auto.
  - unfold mbind, M_bind. specialize (IH g1 w1).
    assert (n ∈ nodes (compile_each self_project rest pool (g1, w1)).2.1 →
            n ∈ nodes g ∨ node_origin self_project (model :: rest) pool n) as Hgoal.
    { intros [Hn|Hn]%IH.
      - apply Hm in Hn as [?|[En Hn]]; [by left|]. right.
        destruct Hn as [-> | (m & ? & ->)]; [left|right].
        + exists model. by rewrite elem_of_cons; auto.
        + exists model, m. by rewrite elem_of_cons; auto.
      - right. destruct Hn as [(m & ? & ? & ->)|(s & m & ? & ? & ? & ->)];
          [left; exists m|right; exists s, m]; by rewrite elem_of_cons; auto. }
    by destruct (compile_each self_project rest pool (g1, w1))
      as [[e|others] [g2 w2]].
Qed.

End node_origins.

Lemma write_graph_file_persists {create_template : CreateTemplate} p g w w' :
  write_graph_file p g w = (inr (), w') →
  files (fs w') !! graph_path p = Some (FileGraph g).
Proof.
  unfold write_graph_file, write_file. fold (graph_path p).
  destruct (_ || _); [done|]. intros [= <-]. simpl. apply lookup_insert_eq.
Qed.

Section claims_on_disabled_models.

Context {create_template : CreateTemplate}.

(** X4. A model whose [enabled] is false produces no
    output, and compiling it adds nothing to the graph. The pool that
    references are resolved in is the whole discovered pool, disabled models
    included: a reference to the disabled model that finds it as the only
    candidate succeeds, returns the quoted reference, and adds the edge from
    its output FQN to the referencing model. Every node of the graph that
    the compilation of a pool builds, and that [write_graph_file] persists,
    is the FQN of an enabled model or the output FQN of a model that an
    enabled model references; so the disabled model is absent from it when
    its FQN is neither. *)
Theorem disabled_model_in_the_pool (p : Project) (d : Model) :
  enabled p d = false →
  (∀ models g w, compile_model p d models (g, w) = (inr None, (g, w)))
  ∧ (∀ pool nm ns,
       filter (is_match nm ns) pool = [d] →
       find_model_by_name pool nm ns = inr d)
  ∧ (∀ s pool ns nm g,
       find_model_by_name pool nm ns = inr d →
       do_ref (env_schema p) (fqn s) pool (ref_args ns nm) g
         = (inr (quoted_ref (env_schema p) d),
            {| nodes := {[fqn s; output_fqn d]} ∪ nodes g;
               edges := {[(output_fqn d, fqn s)]} ∪ edges g |}))
  ∧ (∀ pool w compiled g w1,
       compile_each p pool pool (Linker.init, w) = (inr compiled, (g, w1)) →
       (∀ n, n ∈ nodes g → node_origin p pool pool n)
       ∧ ((∀ m, m ∈ pool → enabled p m = true → fqn m ≠ fqn d) →
          (∀ s m, s ∈ pool → enabled p s = true → references pool s m →
                  output_fqn m ≠ fqn d) →
          fqn d ∉ nodes g)
       ∧ ∀ w2, write_graph_file p g w1 = (inr (), w2) →
               files (fs w2) !! graph_path p = Some (FileGraph g)).
Proof.
  intros Hoff. split; [|split; [|split]].
  - intros models g w. by apply compile_model_not_enabled.
  - intros pool nm ns Hfound. unfold find_model_by_name.
    by rewrite found_filter, Hfound.
  - intros s pool ns nm g Hfind.
    rewrite (do_ref_resolved _ _ _ _ _ _ _ Hfind).
    destruct (find_model_by_name_inr _ _ _ _ Hfind) as [_ [<- _]]. done.
  - intros pool w compiled g w1 Hrun.
    assert (∀ n, n ∈ nodes g → node_origin p pool pool n) as Horigin.
    { intros n Hn.
      destruct (compile_each_nodes p pool pool Linker.init w n) as [Hn'|]; [|by set_solver|done].
      by rewrite Hrun. }
    split; [done|]. split.
    + intros Hown Hrefs Hin.
      destruct (Horigin _ Hin) as [(m & ? & ? & Heq)|(s & m & ? & ? & ? & Heq)].
      * by apply (Hown m).
      * by apply (Hrefs s m).
    + intros w2. apply write_graph_file_persists.
Qed.

End claims_on_disabled_models.

(** ** The dependency ordering *)

Section ordering.

Variable g : DiGraph.
Variable relevant : list FQN.

Lemma rounds_inv_nil : rounds_inv g relevant [].
Proof.
  split; [constructor|]. split; [by intros v ?%elem_of_nil|].
  by intros i v u ?.
Qed.

Lemma rounds_inv_step emitted i v :
  rounds_inv g relevant emitted →
  list_find (ready g relevant emitted) relevant = Some (i, v) →
  rounds_inv g relevant (emitted ++ [v]).
Proof.
  intros (Hnd & Hsub & Hord) (Hv & [Hfresh Hpreds] & _)%list_find_Some.
  assert (v ∈ relevant) as Hrel by (apply list_elem_of_lookup; eauto).
  split; [|split].
  - apply NoDup_app. split; [done|]. split; [|apply NoDup_singleton].
    intros x Hx ->%list_elem_of_singleton. done.
  - intros x [Hx| ->%list_elem_of_singleton]%elem_of_app; auto.
  - intros k x u [[Hk Hx]|[-> <-]]%lookup_snoc_Some Hu Hedge.
    + destruct (Hord k x u Hx Hu Hedge) as (j & Hj & Hlook).
      exists j. split; [done|]. rewrite lookup_app_l by lia. done.
    + rewrite Forall_forall in Hpreds.
      specialize (Hpreds u Hu Hedge).
      apply list_elem_of_lookup in Hpreds as [j Hj].
      exists j. pose proof (lookup_lt_Some _ _ _ Hj).
      split; [done|]. by rewrite lookup_app_l.
Qed.

Lemma rounds_ok n emitted order :
  rounds_inv g relevant emitted →
  topological_rounds n g relevant emitted = inr order →
  rounds_inv g relevant order ∧ length order = length emitted + n.
Proof.
  revert emitted. induction n as [|n IH]; intros emitted Hinv; simpl.
  - intros [= <-]. split; [done|lia].
  - destruct (list_find _ relevant) as [[i v]|] eqn:Hfind; [|done].
    intros [Hinv' Hlen]%IH; [|by eapply rounds_inv_step].
    split; [done|]. rewrite length_app in Hlen. simpl in Hlen. lia.
Qed.

Lemma rounds_error n emitted e :
  topological_rounds n g relevant emitted = inl e → e = cycle_error.
Proof.
  revert emitted. induction n as [|n IH]; intros emitted; simpl; [done|].
  destruct (list_find _ relevant) as [[i v]|]; [apply IH|congruence].
Qed.

Lemma reaches_relevant u v :
  reaches g relevant u v → u ∈ relevant ∧ v ∈ relevant.
Proof. induction 1; tauto. Qed.

Lemma before_trans order u w v :
  NoDup order → before u w order → before w v order → before u v order.
Proof.
  intros Hnd (i & j & Hi & Hj & Hij) (j' & k & Hj' & Hk & Hjk).
  assert (j = j') as <- by eauto using NoDup_lookup.
  exists i, k. split; [done|]. split; [done|lia].
Qed.

Lemma before_irrefl order u : NoDup order → ¬ before u u order.
Proof.
  intros Hnd (i & j & Hi & Hj & Hij).
  assert (i = j) by eauto using NoDup_lookup. lia.
Qed.

Lemma rounds_inv_before order u v :
  rounds_inv g relevant order → v ∈ order →
  u ∈ relevant → (u, v) ∈ edges g → before u v order.
Proof.
  intros (_ & _ & Hord) [i Hi]%list_elem_of_lookup Hu Hedge.
  destruct (Hord i v u Hi Hu Hedge) as (j & Hj & Hlook).
  by exists j, i.
Qed.

Lemma rounds_inv_reaches order u v :
  rounds_inv g relevant order → (∀ x, x ∈ relevant → x ∈ order) →
  reaches g relevant u v → before u v order.
Proof.
  intros Hinv Hall. induction 1 as [u v Hu Hv Hedge|u w v Hu Hedge Hpath IH].
  - apply rounds_inv_before; auto.
  - apply before_trans with w; [apply Hinv| |done].
    apply rounds_inv_before; auto.
    apply Hall. by apply reaches_relevant in Hpath as [? _].
Qed.

(** An ordering that the rounds return has every relevant node once. *)
Lemma rounds_all order :
  NoDup relevant →
  topological_rounds (length relevant) g relevant [] = inr order →
  rounds_inv g relevant order ∧ order ≡ₚ relevant.
Proof.
  intros Hnd [Hinv Hlen]%rounds_ok; [|apply rounds_inv_nil].
  split; [done|]. destruct Hinv as (Hnd' & Hsub & _).
  apply submseteq_length_Permutation; [by apply NoDup_submseteq|].
  simpl in Hlen. lia.
Qed.

End ordering.

(** ** A round that finds no node: there is a cycle *)

Lemma iter_add {A} (f : A → A) (a b : nat) (x : A) :
  Nat.iter (a + b) f x = Nat.iter a f (Nat.iter b f x).
Proof. induction a as [|a IH]; simpl; [done|by rewrite IH]. Qed.

(** A list with a repeated item has it at two positions. *)
Lemma repeated_positions (l : list FQN) :
  ¬ NoDup l → ∃ i j x, i < j ∧ l !! i = Some x ∧ l !! j = Some x.
Proof.
  induction l as [|y l IH]; [intros []; constructor|].
  intros Hdup. destruct (decide (y ∈ l)) as [Hin|Hout].
  - apply list_elem_of_lookup in Hin as [j Hj].
    exists 0, (S j), y. split; [lia|done].
  - destruct IH as (i & j & x & Hij & Hi & Hj).
    { intros Hnd. apply Hdup. by constructor. }
    exists (S i), (S j), x. split; [lia|done].
Qed.

Section stuck.

Variable g : DiGraph.
Variable relevant emitted : list FQN.

(** No relevant node is ready. *)
Hypothesis Hstuck : Forall (λ x, ¬ ready g relevant emitted x) relevant.

Lemma pending_pred_spec x :
  x ∈ relevant → x ∉ emitted →
  pending_pred g relevant emitted x ∈ relevant
  ∧ (pending_pred g relevant emitted x ∉ emitted)
  ∧ (pending_pred g relevant emitted x, x) ∈ edges g.
Proof.
  intros Hx Hfresh. rewrite Forall_forall in Hstuck.
  assert (¬ Forall (λ u, (u, x) ∈ edges g → u ∈ emitted) relevant) as Hnot.
  { intros Hall. by apply (Hstuck x Hx). }
  apply not_Forall_Exists in Hnot; [|apply _].
  apply Exists_exists in Hnot as (u & Hu & Hnotimp). simpl in Hnotimp.
  assert ((u, x) ∈ edges g ∧ u ∉ emitted) as Hpu.
  { destruct (decide ((u, x) ∈ edges g)); [|tauto].
    destruct (decide (u ∈ emitted)); tauto. }
  unfold pending_pred.
  destruct (list_find_elem_of (λ u, (u, x) ∈ edges g ∧ u ∉ emitted)
              relevant u Hu Hpu) as [[i u'] Hfind].
  rewrite Hfind. apply list_find_Some in Hfind as (Hi & [? ?] & _).
  split; [|done]. apply list_elem_of_lookup. eauto.
Qed.

Lemma pending_iter k x :
  x ∈ relevant → x ∉ emitted →
  Nat.iter k (pending_pred g relevant emitted) x ∈ relevant
  ∧ (Nat.iter k (pending_pred g relevant emitted) x ∉ emitted).
Proof.
  intros Hx Hfresh. induction k as [|k [IH1 IH2]]; simpl; [done|].
  destruct (pending_pred_spec _ IH1 IH2) as (? & ? & _). done.
Qed.

Lemma pending_reaches k x :
  x ∈ relevant → x ∉ emitted →
  reaches g relevant (Nat.iter (S k) (pending_pred g relevant emitted) x) x.
Proof.
  intros Hx Hfresh. induction k as [|k IH].
  - simpl. destruct (pending_pred_spec x Hx Hfresh) as (? & _ & ?).
    by apply reaches_edge.
  - destruct (pending_iter (S k) x Hx Hfresh) as [Hk1 Hk2].
    destruct (pending_pred_spec _ Hk1 Hk2) as (? & _ & ?).
    change (Nat.iter (S (S k)) (pending_pred g relevant emitted) x)
      with (pending_pred g relevant emitted
              (Nat.iter (S k) (pending_pred g relevant emitted) x)).
    by eapply reaches_step.
Qed.

Lemma stuck_cycle x :
  x ∈ relevant → x ∉ emitted → has_cycle g relevant.
Proof.
  intros Hx Hfresh.
  set (f := pending_pred g relevant emitted).
  set (walk := (λ k, Nat.iter k f x) <$> seq 0 (S (length relevant))).
  destruct (repeated_positions walk) as (i & j & y & Hij & Hi & Hj).
  { intros Hnd.
    assert (walk ⊆+ relevant) as Hsub.
    { apply NoDup_submseteq; [done|]. intros z Hz.
      apply list_elem_of_fmap in Hz as (k & -> & _).
      by apply pending_iter. }
    apply submseteq_length in Hsub. unfold walk in Hsub.
    rewrite length_fmap, length_seq in Hsub. lia. }
  unfold walk in Hi, Hj. rewrite list_lookup_fmap in Hi, Hj.
  destruct (seq 0 (S (length relevant)) !! i) as [i'|] eqn:Ei; [|done].
  destruct (seq 0 (S (length relevant)) !! j) as [j'|] eqn:Ej; [|done].
  apply lookup_seq in Ei as [-> _]. apply lookup_seq in Ej as [-> _].
  simpl in Hi, Hj. injection Hi as Hi. injection Hj as Hj.
  exists y.
  destruct (pending_iter i x Hx Hfresh) as [Hy1 Hy2]. fold f in Hy1, Hy2.
  rewrite Hi in Hy1, Hy2.
  pose proof (pending_reaches (j - i - 1) y Hy1 Hy2) as Hpath.
  fold f in Hpath. rewrite <- Hi in Hpath at 1.
  rewrite <- iter_add in Hpath.
  replace (S (j - i - 1) + i) with j in Hpath by lia.
  by rewrite Hj in Hpath.
Qed.

End stuck.

Lemma rounds_stuck g relevant n emitted e :
  NoDup relevant →
  rounds_inv g relevant emitted →
  length emitted + n = length relevant →
  topological_rounds n g relevant emitted = inl e →
  has_cycle g relevant.
Proof.
  intros Hnd. revert emitted.
  induction n as [|n IH]; intros emitted Hinv Hlen; simpl; [done|].
  destruct (list_find _ relevant) as [[i v]|] eqn:Hfind.
  - apply IH; [by eapply rounds_inv_step|].
    rewrite length_app. simpl. lia.
  - intros _. apply list_find_None in Hfind.
    destruct Hinv as (Hnd' & Hsub & _).
    destruct (decide (Forall (λ x, x ∈ emitted) relevant)) as [Hall|Hsome].
    + rewrite Forall_forall in Hall.
      assert (relevant ⊆+ emitted) as Hle by by apply NoDup_submseteq.
      apply submseteq_length in Hle. lia.
    + apply not_Forall_Exists in Hsome; [|apply _].
      apply Exists_exists in Hsome as (x & Hx & Hfresh).
      by apply (stuck_cycle g relevant emitted Hfind x).
Qed.

Lemma relevant_nodes_NoDup g limit_to : NoDup (relevant_nodes g limit_to).
Proof.
  destruct limit_to as [subset|]; simpl.
  - apply NoDup_filter, NoDup_elements.
  - apply NoDup_elements.
Qed.

Lemma elem_of_relevant_nodes g limit_to n :
  n ∈ relevant_nodes g limit_to ↔
  n ∈ nodes g ∧ ∀ subset, limit_to = Some subset → n ∈ subset.
Proof.
  destruct limit_to as [subset|]; simpl.
  - rewrite list_elem_of_filter, elem_of_elements. split.
    + intros [? ?]. split; [done|]. by intros ? [= <-].
    + intros [? H]. split; [by apply H|done].
  - rewrite elem_of_elements. split; [|tauto].
    intros ?. split; [done|]. by intros ? [=].
Qed.

(** The graphs that the linker builds have the end points of their edges
    among their nodes. *)
Lemma graph_wf_empty : graph_wf nx_empty.
Proof. intros u v. simpl. set_solver. Qed.

Lemma graph_wf_add_node n g : graph_wf g → graph_wf (nx_add_node n g).
Proof. intros Hwf u v Hedge. destruct (Hwf u v Hedge). simpl. set_solver. Qed.

Lemma graph_wf_add_edge a b g : graph_wf g → graph_wf (nx_add_edge a b g).
Proof.
  intros Hwf u v. simpl. rewrite elem_of_union, elem_of_singleton.
  intros [[= -> ->]|Hedge]; [set_solver|].
  destruct (Hwf u v Hedge). set_solver.
Qed.

Lemma graph_wf_dependency node1 node2 g :
  graph_wf g → graph_wf (Linker.dependency node1 node2 g).2.
Proof.
  intros Hwf. unfold Linker.dependency, modify, mbind, M_bind. simpl.
  by apply graph_wf_add_edge, graph_wf_add_node, graph_wf_add_node.
Qed.

(** The ordering of [as_dependency_list], on the model of the sort. The
    graph is left as it is. For an edge from [u] to [v] between relevant
    nodes (all the nodes of the graph, or those in the subset when one is
    given), an ordering that is returned has [u] before [v]; over the whole
    of a graph that the linker built, both ends of every edge are relevant.
    An ordering that is returned has every relevant node once. When the
    relevant nodes contain a cycle the cycle error is raised, and otherwise
    an ordering is returned. *)
Lemma as_dependency_list_orders (g : DiGraph)
    (limit_to : option (list FQN)) :
  let relevant := relevant_nodes g limit_to in
  (∀ order u v,
     Linker.as_dependency_list limit_to g = (inr order, g) →
     (u, v) ∈ edges g → u ∈ relevant → v ∈ relevant →
     before u v order)
  ∧ (graph_wf g → limit_to = None →
     ∀ u v, (u, v) ∈ edges g → u ∈ relevant ∧ v ∈ relevant)
  ∧ (∀ subset u, limit_to = Some subset →
     u ∈ nodes g → u ∈ subset → u ∈ relevant)
  ∧ (∀ order,
     Linker.as_dependency_list limit_to g = (inr order, g) →
     order ≡ₚ relevant)
  ∧ (has_cycle g relevant →
     Linker.as_dependency_list limit_to g = (inl cycle_error, g))
  ∧ (¬ has_cycle g relevant →
     ∃ order, Linker.as_dependency_list limit_to g = (inr order, g)).
Proof.
  intros relevant.
  pose proof (relevant_nodes_NoDup g limit_to) as Hnd. fold relevant in Hnd.
  unfold Linker.as_dependency_list, topological_sort. fold relevant.
  assert (∀ order,
    topological_rounds (length relevant) g relevant [] = inr order →
    ∀ u v, reaches g relevant u v → before u v order) as Hpaths.
  { intros order [Hinv Hperm]%rounds_all u v Hpath; [|done].
    apply (rounds_inv_reaches g relevant); [done| |done].
    intros x Hx. by rewrite Hperm. }
  assert (has_cycle g relevant →
    topological_rounds (length relevant) g relevant [] = inl cycle_error)
    as Hcycle.
  { intros [u Hu].
    destruct (topological_rounds _ g relevant []) as [e|order] eqn:Hrun.
    - by rewrite (rounds_error _ _ _ _ _ Hrun).
    - exfalso. apply (before_irrefl order u).
      + apply rounds_all in Hrun as [(? & _) _]; done.
      + by apply (Hpaths order).  }
  split; [|split; [|split; [|split; [|split]]]].
  - intros order u v [= Hrun] Hedge Hu Hv.
    apply (Hpaths order Hrun). by apply reaches_edge.
  - intros Hwf -> u v Hedge. destruct (Hwf u v Hedge).
    unfold relevant. simpl. by rewrite !elem_of_elements.
  - intros subset u -> Hn Hs. apply elem_of_relevant_nodes.
    split; [done|]. by intros ? [= <-].
  - intros order [= Hrun]. by apply rounds_all in Hrun as [_ ?].
  - intros Hc. by rewrite Hcycle.
  - intros Hno.
    destruct (topological_rounds _ g relevant []) as [e|order] eqn:Hrun;
      [|by eauto].
    exfalso. apply Hno.
    apply (rounds_stuck g relevant (length relevant) [] e); try done.
    apply rounds_inv_nil.
Qed.

(** * Further properties of the code *)

(** ** Validation and resolution *)

Section validation_and_resolution.

Context {create_template : CreateTemplate}.

(** X1. [validate_models_unique] accepts a list of models exactly when no
    two of them have the same name; when it rejects the list, the error
    names the first model whose name an earlier model has, and the models
    before it have distinct names. *)
Theorem validate_models_unique_distinct (models : list Model) :
  (validate_models_unique models = inr () ↔ NoDup (name <$> models))
  ∧ ∀ e, validate_models_unique models = inl e →
      ∃ before model after,
        models = before ++ model :: after
        ∧ NoDup (name <$> before)
        ∧ name model ∈ (name <$> before)
        ∧ e = RuntimeError (conflict_msg (name model)).
Proof.
  unfold validate_models_unique. split.
  - rewrite validate_from_inr. split; [tauto|]. intros ?. split; [done|].
    set_solver.
  - intros e (before & model & after & -> & Hok & Hin & ->)%validate_from_inl.
    apply validate_from_inr in Hok as [Hnd _].
    exists before, model, after. repeat split; try done.
    destruct Hin as [Hin|Hin]; [set_solver|done].
Qed.

(** X5. A call of [ref] with no argument, or with more than two, raises the
    error of the unbound local [other_model_name] and leaves the graph as
    it was. *)
Theorem do_ref_wrong_arity (schema : string) (source : FQN)
    (all_models : list Model) (args : list string) (g : DiGraph) :
  length args ≠ 1 → length args ≠ 2 →
  do_ref schema source all_models args g
    = (inl (UnboundLocalError "other_model_name"), g).
Proof.
  intros H1 H2. by destruct args as [|a [|b [|c rest]]].
Qed.

(** X6. A call of [ref] whose resolution fails raises the error of the
    resolver and adds nothing to the graph: no node and no edge. *)
Theorem do_ref_failed_resolution (schema : string) (source : FQN)
    (all_models : list Model) (ns : option string) (nm : string) (e : exn)
    (g : DiGraph) :
  find_model_by_name all_models nm ns = inl e →
  do_ref schema source all_models (ref_args ns nm) g = (inl e, g).
Proof. apply do_ref_unresolved. Qed.

(** The candidates that match have the target's name. *)
Lemma filter_match_names nm ns (pool : list Model) :
  name <$> filter (is_match nm ns) pool
    = replicate (length (filter (is_match nm ns) pool)) nm.
Proof.
  induction pool as [|m pool IH]; [done|].
  rewrite filter_cons. destruct (decide (is_match nm ns m)) as [[Hn _]|]; [|done].
  rewrite fmap_cons, IH, Hn. done.
Qed.

Lemma filter_names_NoDup nm ns (pool : list Model) :
  NoDup (name <$> pool) → NoDup (name <$> filter (is_match nm ns) pool).
Proof.
  induction pool as [|m pool IH]; [done|].
  rewrite fmap_cons, NoDup_cons. intros [Hfresh Hnd].
  rewrite filter_cons. destruct (decide (is_match nm ns m)); [|by apply IH].
  rewrite fmap_cons, NoDup_cons. split; [|by apply IH].
  intros (m' & Heq & Hin)%list_elem_of_fmap. apply Hfresh.
  apply list_elem_of_fmap. exists m'. split; [done|].
  by apply list_elem_of_filter in Hin as [_ ?].
Qed.

(** X8. In a pool that [validate_models_unique] accepts, no reference is
    ambiguous: the resolver returns a model of the pool with the target's
    name, or raises the not-found error. *)
Theorem validated_pool_is_unambiguous (pool : list Model) (nm : string)
    (ns : option string) :
  validate_models_unique pool = inr () →
  (∃ m, find_model_by_name pool nm ns = inr m ∧ m ∈ pool ∧ name m = nm)
  ∨ find_model_by_name pool nm ns = inl (ReferenceNotFound nm ns).
Proof.
  intros Hnd%validate_from_inr. destruct Hnd as [Hnd _].
  pose proof (filter_names_NoDup nm ns pool Hnd) as Hnd'.
  rewrite filter_match_names in Hnd'.
  destruct (find_model_by_name pool nm ns) as [e|m] eqn:Hfind.
  - right. revert Hfind. unfold find_model_by_name. rewrite found_filter.
    destruct (filter (is_match nm ns) pool) as [|m1 [|m2 rest]].
    + by intros [= <-].
    + done.
    + simpl in Hnd'. apply NoDup_cons in Hnd' as [Hfresh _].
      exfalso. apply Hfresh. by left.
  - left. exists m. split; [done|].
    apply find_model_by_name_inr in Hfind as [? [? _]]. done.
Qed.

(** X9. The model a reference resolves to does not depend on the order in
    which the pool was discovered; nor does the not-found error. *)
Theorem find_model_by_name_order (pool pool' : list Model) (nm : string)
    (ns : option string) :
  pool ≡ₚ pool' →
  (∀ m, find_model_by_name pool nm ns = inr m →
        find_model_by_name pool' nm ns = inr m)
  ∧ (find_model_by_name pool nm ns = inl (ReferenceNotFound nm ns) →
     find_model_by_name pool' nm ns = inl (ReferenceNotFound nm ns)).
Proof.
  intros Hperm.
  assert (filter (is_match nm ns) pool ≡ₚ filter (is_match nm ns) pool')
    as Hf by by rewrite Hperm.
  unfold find_model_by_name. rewrite !found_filter.
  split.
  - intros m.
    destruct (filter (is_match nm ns) pool) as [|m1 [|m2 rest]]; try done.
    intros [= ->]. apply Permutation_singleton_l in Hf. by rewrite <- Hf.
  - destruct (filter (is_match nm ns) pool) as [|m1 [|m2 rest]] eqn:E.
    + apply Permutation_nil_l in Hf. by rewrite <- Hf.
    + done.
    + by intros [=].
Qed.

End validation_and_resolution.

(** ** Rendering and the graph *)

Section rendering_and_graph.

Context {create_template : CreateTemplate}.
Variable self_project : Project.

Lemma render_no_ref (ref : list string → M DiGraph string) t g :
  (∀ args, Ref args ∉ t) →
  ∃ text, render ref t g = (inr text, g).
Proof.
  revert g. induction t as [|[s|args] t IH]; intros g Hno; simpl.
  - by eexists.
  - destruct (IH g) as [text Htext].
    { intros args Hin. apply (Hno args). by right. }
    unfold mbind, M_bind. rewrite Htext. by eexists.
  - exfalso. apply (Hno args). by left.
Qed.

(** X10. Compiling an enabled model whose template has no reference, when
    the template and the context load, adds the model's FQN to the nodes of
    the graph and nothing else: no other node and no edge. When they do not
    load, the graph is as it was. *)
Theorem compile_model_without_references (model : Model)
    (models : list Model) (g : DiGraph) (w : World) :
  enabled self_project model = true →
  (∀ args, Ref args ∉ template model) →
  (load_error self_project model = None →
     (compile_model self_project model models (g, w)).2.1
       = nx_add_node (fqn model) g)
  ∧ (∀ e, load_error self_project model = Some e →
       compile_model self_project model models (g, w) = (inl e, (g, w))).
Proof.
  intros En Hno. split.
  - intros Hload. rewrite compile_model_enabled by done.
    destruct (render_no_ref (do_ref (env_schema self_project) (fqn model) models)
                (template model) (nx_add_node (fqn model) g) Hno) as [text ->].
    simpl. destruct (stmt_truthy _); [|done].
    by destruct (write _ _ _ w) as [[e|[]] w'].
  - intros e Hload. by apply compile_model_unloaded.
Qed.

End rendering_and_graph.

(** ** The edges of the graph *)

Section edges_of_the_graph.

Context {create_template : CreateTemplate}.
Variable self_project : Project.

Lemma ref_args_inj ns nm ns' nm' :
  ref_args ns nm = ref_args ns' nm' → ns = ns' ∧ nm = nm'.
Proof. destruct ns, ns'; simpl; intros [=]; by subst. Qed.

Lemma do_ref_edges schema source pool args g e :
  e ∈ edges (do_ref schema source pool args g).2 →
  e ∈ edges g
  ∨ ∃ ns nm m, args = ref_args ns nm
               ∧ find_model_by_name pool nm ns = inr m
               ∧ e = (output_fqn m, source).
Proof.
  destruct (do_ref_shape schema source pool args g) as [(ns & nm & ->) | ->];
    [|by left].
  destruct (find_model_by_name pool nm ns) as [err|m] eqn:Hfind.
  - rewrite (do_ref_unresolved _ _ _ _ _ _ _ Hfind). by left.
  - rewrite (do_ref_resolved _ _ _ _ _ _ _ Hfind). simpl.
    destruct (find_model_by_name_inr _ _ _ _ Hfind) as [_ [<- _]].
    rewrite elem_of_union, elem_of_singleton. intros [-> | He]; [|by left].
    right. by exists ns, (name m), m.
Qed.

Lemma render_edges schema source pool t g e :
  e ∈ edges (render (do_ref schema source pool) t g).2 →
  e ∈ edges g
  ∨ ∃ ns nm m, Ref (ref_args ns nm) ∈ t
               ∧ find_model_by_name pool nm ns = inr m
               ∧ e = (output_fqn m, source).
Proof.
  revert g. induction t as [|[s|args] t IH]; intros g; simpl.
  - by left.
  - unfold mbind, M_bind. specialize (IH g).
    destruct (render _ t g) as [[err|out] g']; simpl in *;
      intros [?|(ns & nm & m & ? & ? & ?)]%IH; auto;
      right; exists ns, nm, m; by rewrite elem_of_cons; auto.
  - unfold mbind at 1, M_bind at 1.
    pose proof (do_ref_edges schema source pool args g e) as Hcall.
    destruct (do_ref schema source pool args g) as [[err|r] g1]; simpl in *.
    + intros [?|(ns & nm & m & -> & ? & ?)]%Hcall; auto.
      right; exists ns, nm, m. by rewrite elem_of_cons; auto.
    + unfold mbind, M_bind. specialize (IH g1).
      destruct (render _ t g1) as [[err|out] g']; simpl in *;
        (intros [He|(ns & nm & m & ? & ? & ?)]%IH;
         [ apply Hcall in He as [?|(ns & nm & m & -> & ? & ?)]; auto | ];
         right; exists ns, nm, m; by rewrite elem_of_cons; auto).
Qed.

(** A rendering that succeeds resolved every reference of the template and
    left its edge in the graph. *)
Lemma render_resolved schema source pool t g text g' :
  render (do_ref schema source pool) t g = (inr text, g') →
  ∀ args, Ref args ∈ t →
    ∃ ns nm m, args = ref_args ns nm
               ∧ find_model_by_name pool nm ns = inr m
               ∧ (output_fqn m, source) ∈ edges g'.
Proof.
  revert g text. induction t as [|[s|args0] t IH]; intros g text; simpl.
  - by intros _ args ?%elem_of_nil.
  - unfold mbind, M_bind.
    destruct (render _ t g) as [[err|out] g1] eqn:Hrest; [done|].
    intros [= _ <-] args [[=]|Hin]%elem_of_cons. by eapply IH.
  - unfold mbind at 1, M_bind at 1.
    destruct (do_ref schema source pool args0 g) as [[err|r] g1] eqn:Hcall;
      [done|].
    unfold mbind, M_bind.
    destruct (render _ t g1) as [[err|out] g2] eqn:Hrest; [done|].
    intros [= _ <-] args [[= ->]|Hin]%elem_of_cons; [|by eapply IH].
    destruct (do_ref_shape schema source pool args0 g) as [(ns & nm & ->)|Hbad];
      [|congruence].
    destruct (find_model_by_name pool nm ns) as [err|m] eqn:Hfind.
    { rewrite (do_ref_unresolved _ _ _ _ _ _ _ Hfind) in Hcall. done. }
    exists ns, nm, m. split; [done|]. split; [done|].
    rewrite (do_ref_resolved _ _ _ _ _ _ _ Hfind) in Hcall.
    destruct (find_model_by_name_inr _ _ _ _ Hfind) as [_ [<- _]].
    injection Hcall as _ <-.
    pose proof (render_extends (do_ref schema source pool) t
      {| nodes := {[source; removelast (fqn m) ++ [model_name (name m)]]} ∪ nodes g;
         edges := {[(removelast (fqn m) ++ [model_name (name m)], source)]} ∪ edges g |}
      (do_ref_extends _ _ _)) as [_ Hsub].
    rewrite Hrest in Hsub. simpl in Hsub. apply Hsub. unfold output_fqn.
    set_solver.
Qed.

End edges_of_the_graph.

Section edges_of_a_pool.

Context {create_template : CreateTemplate}.
Variable self_project : Project.

Lemma compile_model_edges model pool g w e :
  e ∈ edges (compile_model self_project model pool (g, w)).2.1 →
  e ∈ edges g
  ∨ enabled self_project model = true
    ∧ ∃ m, references pool model m ∧ e = (output_fqn m, fqn model).
Proof.
  destruct (enabled self_project model) eqn:En;
    [destruct (load_error self_project model) as [e0|] eqn:Hload|].
  - rewrite (compile_model_unloaded _ _ _ _ _ e0) by done. by left.
  - rewrite compile_model_enabled by done.
    pose proof (render_edges (env_schema self_project) (fqn model) pool
                  (template model) (nx_add_node (fqn model) g) e) as Hr.
    assert (e ∈ edges (render (do_ref (env_schema self_project) (fqn model) pool)
                         (template model) (nx_add_node (fqn model) g)).2 →
            e ∈ edges g ∨ true = true ∧
              ∃ m, references pool model m ∧ e = (output_fqn m, fqn model))
      as Hgoal.
    { intros [He | (ns & nm & m & ? & ? & ->)]%Hr; [by left|].
      right. split; [done|]. exists m. split; [|done]. by exists ns, nm. }
    destruct (render _ _ _) as [[err|rendered] g']; simpl in *; [done|].
    destruct (stmt_truthy _); simpl; [|done].
    by destruct (write _ _ _ w) as [[err|[]] w'].
  - rewrite compile_model_not_enabled by done. by left.
Qed.

Lemma compile_model_resolved model pool g w r g' w' :
  compile_model self_project model pool (g, w) = (inr r, (g', w')) →
  enabled self_project model = true →
  ∀ args, Ref args ∈ template model →
    ∃ ns nm m, args = ref_args ns nm
               ∧ find_model_by_name pool nm ns = inr m
               ∧ (output_fqn m, fqn model) ∈ edges g'.
Proof.
  intros Hrun En.
  destruct (load_error self_project model) as [e0|] eqn:Hload.
  { by rewrite (compile_model_unloaded _ _ _ _ _ e0) in Hrun. }
  rewrite compile_model_enabled in Hrun by done.
  destruct (render _ _ _) as [[err|rendered] g1] eqn:Hrender; [done|].
  assert (g' = g1) as ->.
  { simpl in Hrun. destruct (stmt_truthy _); [|congruence].
    destruct (write _ _ _ w) as [[err|[]] w1]; congruence. }
  by eapply render_resolved.
Qed.

Lemma compile_each_extends todo pool g w :
  extends g (compile_each self_project todo pool (g, w)).2.1.
Proof.
  revert g w. induction todo as [|model rest IH]; intros g w; simpl; [done|].
  unfold mbind at 1, M_bind at 1.
  pose proof (compile_model_extends self_project model pool g w) as Hm.
  destruct (compile_model self_project model pool (g, w)) as [[err|r] [g1 w1]];
    simpl in *; [done|].
  unfold mbind, M_bind. specialize (IH g1 w1).
  destruct (compile_each self_project rest pool (g1, w1))
    as [[err|others] [g2 w2]]; simpl in *; by etrans.
Qed.

Lemma compile_each_edges todo pool g w e :
  e ∈ edges (compile_each self_project todo pool (g, w)).2.1 →
  e ∈ edges g
  ∨ ∃ s m, s ∈ todo ∧ enabled self_project s = true
           ∧ references pool s m ∧ e = (output_fqn m, fqn s).
Proof.
  revert g w. induction todo as [|model rest IH]; intros g w; simpl; [by left|].
  unfold mbind at 1, M_bind at 1.
  pose proof (compile_model_edges model pool g w e) as Hm.
  destruct (compile_model self_project model pool (g, w)) as [[err|r] [g1 w1]];
    simpl in *.
  - intros [?|[En (m & ? & ->)]]%Hm; [by left|]. right.
    exists model, m. by rewrite elem_of_cons; auto.
  - unfold mbind, M_bind. specialize (IH g1 w1).
    assert (e ∈ edges (compile_each self_project rest pool (g1, w1)).2.1 →
            e ∈ edges g
            ∨ ∃ s m, s ∈ model :: rest ∧ enabled self_project s = true
                     ∧ references pool s m ∧ e = (output_fqn m, fqn s)) as Hgoal.
    { intros [He | (s & m & ? & ? & ? & ->)]%IH.
      - apply Hm in He as [?|[En (m & ? & ->)]]; [by left|]. right.
        exists model, m. by rewrite elem_of_cons; auto.
      - right. exists s, m. by rewrite elem_of_cons; auto. }
    by destruct (compile_each self_project rest pool (g1, w1))
      as [[err|others] [g2 w2]].
Qed.

Lemma compile_each_resolved todo pool g w compiled g' w' :
  compile_each self_project todo pool (g, w) = (inr compiled, (g', w')) →
  ∀ s, s ∈ todo → enabled self_project s = true →
  ∀ args, Ref args ∈ template s →
    ∃ ns nm m, args = ref_args ns nm
               ∧ find_model_by_name pool nm ns = inr m
               ∧ (output_fqn m, fqn s) ∈ edges g'.
Proof.
  revert g w compiled. induction todo as [|model rest IH];
    intros g w compiled; simpl; [by intros _ s ?%elem_of_nil|].
  unfold mbind at 1, M_bind at 1.
  destruct (compile_model self_project model pool (g, w))
    as [[err|r] [g1 w1]] eqn:Hmodel; [done|].
  unfold mbind, M_bind.
  destruct (compile_each self_project rest pool (g1, w1))
    as [[err|others] [g2 w2]] eqn:Hrest; [done|].
  intros [= _ <- <-] s [-> | Hin]%elem_of_cons En args Hargs.
  - destruct (compile_model_resolved _ _ _ _ _ _ _ Hmodel En args Hargs)
      as (ns & nm & m & ? & ? & Hedge).
    exists ns, nm, m. split; [done|]. split; [done|].
    pose proof (compile_each_extends rest pool g1 w1) as [_ Hsub].
    rewrite Hrest in Hsub. by apply Hsub.
  - by eapply IH.
Qed.

(** X7. When the compilation of the models [todo] against a pool succeeds,
    the edges of the graph it builds from an empty linker are exactly the
    references of the enabled models: the graph has an edge from [a] to [b]
    if and only if [b] is the FQN of an enabled model of [todo] whose
    template has a reference that resolves to a model with output FQN [a].
    Every reference of an enabled model was resolved. *)
Theorem edges_are_the_references (todo pool : list Model) (w w' : World)
    (compiled : list bool) (g : DiGraph) :
  compile_each self_project todo pool (Linker.init, w)
    = (inr compiled, (g, w')) →
  (∀ a b, (a, b) ∈ edges g ↔
     ∃ s m, s ∈ todo ∧ enabled self_project s = true
            ∧ references pool s m ∧ a = output_fqn m ∧ b = fqn s)
  ∧ ∀ s args, s ∈ todo → enabled self_project s = true →
      Ref args ∈ template s →
      ∃ ns nm m, args = ref_args ns nm
                 ∧ find_model_by_name pool nm ns = inr m.
Proof.
  intros Hrun. split.
  - intros a b. split.
    + intros Hedge.
      destruct (compile_each_edges todo pool Linker.init w (a, b))
        as [Hempty | (s & m & ? & ? & ? & [= -> ->])].
      * by rewrite Hrun.
      * by apply elem_of_empty in Hempty.
      * by exists s, m.
    + intros (s & m & Hin & En & (ns & nm & Href & Hfind) & -> & ->).
      destruct (compile_each_resolved _ _ _ _ _ _ _ Hrun s Hin En _ Href)
        as (ns' & nm' & m' & Heq & Hfind' & Hedge).
      apply ref_args_inj in Heq as [<- <-]. congruence.
  - intros s args Hin En Hargs.
    destruct (compile_each_resolved _ _ _ _ _ _ _ Hrun s Hin En _ Hargs)
      as (ns & nm & m & ? & ? & _).
    by exists ns, nm, m.
Qed.

End edges_of_a_pool.

(** ** Directories and counts *)

Lemma makedirs_inr p w w' :
  makedirs p w = (inr (), w') →
  p ≠ [] ∧ w' = set_dirs (list_to_set (prefixes p) ∪ dirs (fs w)) w.
Proof.
  unfold makedirs. case_bool_decide as Hp; [done|]. simpl.
  destruct (path_exists w p || existsb (isfile w) (prefixes p)); [done|].
  by intros [= <-].
Qed.

Lemma ensure_exists p w w' :
  (if path_exists w p then (inr (), w) else makedirs p w) = (inr (), w') →
  path_exists w' p = true
  ∧ ∀ q, path_exists w q = true → path_exists w' q = true.
Proof.
  destruct (path_exists w p) eqn:Hex.
  - by intros [= <-].
  - intros [Hp ->]%makedirs_inr. unfold path_exists. split.
    + rewrite isdir_set_dirs, bool_decide_eq_true_2; [done|].
      apply elem_of_union_l, elem_of_list_to_set. by apply prefixes_self.
    + intros q. rewrite isdir_set_dirs, isfile_set_dirs.
      unfold isdir. rewrite !orb_true_iff, !bool_decide_eq_true. set_solver.
Qed.

(** X13. [initialize] is idempotent: run again on the world that a
    successful run left, it succeeds and changes nothing. *)
Theorem initialize_twice (p : Project) (w w' : World) :
  initialize p w = (inr (), w') →
  initialize p w' = (inr (), w').
Proof.
  rewrite !initialize_unfold.
  destruct (if path_exists w (target_path p) then (inr (), w)
            else makedirs (target_path p) w) as [[e|[]] w1] eqn:H1; [done|].
  intros H2.
  apply ensure_exists in H1 as [Ht1 Hmono1].
  apply ensure_exists in H2 as [Hm2 Hmono2].
  by rewrite (Hmono2 _ Ht1), Hm2.
Qed.

Section counts.

Context {create_template : CreateTemplate} {discovery : Discovery}.
Variable self_project : Project.

Lemma compile_model_true model pool s s' :
  compile_model self_project model pool s = (inr (Some true), s') →
  enabled self_project model = true.
Proof.
  destruct (enabled self_project model) eqn:En; [done|].
  by rewrite compile_model_not_enabled.
Qed.

Lemma compile_each_count todo pool s compiled s' :
  compile_each self_project todo pool s = (inr compiled, s') →
  Forall (λ b, b = true) compiled
  ∧ length compiled
      ≤ length (filter (λ m, enabled self_project m = true) todo).
Proof.
  revert s compiled s'. induction todo as [|model rest IH];
    intros s compiled s'; simpl.
  - intros [= <- _]. split; [constructor|done].
  - unfold mbind at 1, M_bind at 1.
    destruct (compile_model self_project model pool s) as [[e|r] s1] eqn:Hm;
      [done|].
    unfold mbind, M_bind.
    destruct (compile_each self_project rest pool s1) as [[e|others] s2] eqn:Hr;
      [done|].
    destruct (IH _ _ _ Hr) as [Hall Hlen].
    rewrite filter_cons.
    intros [= <- _]. destruct r as [[|]|]; simpl.
    + rewrite decide_True by by eapply compile_model_true.
      split; [by constructor|]. simpl. lia.
    + split; [done|]. destruct (decide _); simpl; lia.
    + split; [done|]. destruct (decide _); simpl; lia.
Qed.

(** X14. The two counts that [compile] returns are bounded by the enabled
    models of the pool and by the enabled analyses of the project: a model
    that is not enabled is never counted as compiled. *)
Theorem compile_counts (models : list Model) (w w' : World) (a b : nat) :
  compile_pool self_project models w = (inr (a, b), w') →
  a ≤ length (filter (λ m, enabled self_project m = true) models)
  ∧ b ≤ length (filter (λ m, enabled self_project m = true)
                  (analysis_sources self_project)).
Proof.
  unfold compile_pool. unfold mbind at 1, M_bind at 1.
  unfold with_linker at 1.
  destruct (compile_each self_project models models (Linker.init, w))
    as [[e|compiled] [g1 w1]] eqn:H1; [done|].
  unfold mbind at 1, M_bind at 1.
  destruct (write_graph_file self_project g1 w1) as [[e|[]] w2]; [done|].
  unfold mbind at 1, M_bind at 1. unfold with_linker.
  destruct (compile_each self_project (analysis_sources self_project) models
              (Linker.init, w2)) as [[e|analyses] [g3 w3]] eqn:H3; [done|].
  intros [= <- <- _].
  apply compile_each_count in H1 as [_ ?].
  apply compile_each_count in H3 as [_ ?]. done.
Qed.

End counts.

(** ** Writing a statement, listing the installed projects *)

Lemma prefixes_length (p q : path) : q ∈ prefixes p → length q ≤ length p.
Proof.
  revert q. induction p as [|x p IH]; intros q; simpl; [by intros ?%elem_of_nil|].
  intros [-> | (q' & -> & Hq')%list_elem_of_fmap]%elem_of_cons; simpl; [lia|].
  specialize (IH q' Hq'). lia.
Qed.

Lemma dirname_length (p : path) : p ≠ [] → length (dirname p) < length p.
Proof.
  unfold dirname. destruct p as [|x p] using rev_ind; [done|]. intros _.
  rewrite removelast_last, length_app. simpl. lia.
Qed.

Lemma dirname_last (p d : path) (obj : string) :
  dirname p = d ∧ last p = Some obj ↔ p = d ++ [obj].
Proof.
  unfold dirname. split.
  - intros [<- Hlast]. destruct p as [|x p] using rev_ind; [done|].
    rewrite last_snoc in Hlast. injection Hlast as ->.
    by rewrite removelast_last.
  - intros ->. by rewrite removelast_last, last_snoc.
Qed.

Section writing_and_listing.

Context {discovery : Discovery}.
Variable self_project : Project.

(** X11. [__write] stores the payload in the file at the target path
    joined with the build path and prints that path, creating the missing
    directories above the file when no file is in their way; the other
    files are as they were. *)
Theorem write_stores_payload (build_filepath : path) (payload : string)
    (w : World) :
  let target := target_path self_project ++ build_filepath in
  dirname target ≠ [] →
  isdir w target = false →
  (∀ q, q ∈ prefixes (dirname target) → isfile w q = false) →
  ∃ w', write self_project build_filepath payload w = (inr (), w')
    ∧ files (fs w') = <[target := FileText payload]> (files (fs w))
    ∧ files (fs w') !! target = Some (FileText payload)
    ∧ (∀ q, q ≠ target → files (fs w') !! q = files (fs w) !! q)
    ∧ stdout w' = stdout w ++ [target]
    ∧ isdir w' (dirname target) = true
    ∧ dirs (fs w) ⊆ dirs (fs w').
Proof.
  intros target Hdir Hnodir Hfiles.
  assert (target ≠ []) as Htarget by (intros Heq; by rewrite Heq in Hdir).
  destruct (ensure_directory (dirname target) w Hdir Hfiles)
    as (w1 & Hens & Hd1 & Hf1 & Ho1 & Hsub1 & Hsup1).
  assert (isdir w1 target = false) as Hnodir1.
  { apply bool_decide_eq_false. intros Hin. apply Hsup1 in Hin.
    apply elem_of_union in Hin as [Hin|Hin].
    - apply bool_decide_eq_false in Hnodir. done.
    - apply elem_of_list_to_set, prefixes_length in Hin.
      pose proof (dirname_length target Htarget). lia. }
  set (w2 := {| fs := fs w1; stdout := stdout w1 ++ [target] |}).
  exists (set_files (<[target := FileText payload]> (files (fs w2))) w2).
  assert (write self_project build_filepath payload w
          = (inr (), set_files (<[target := FileText payload]> (files (fs w2))) w2))
    as Hrun.
  { unfold write. fold target. unfold mbind at 1, M_bind at 1, gets.
    unfold mbind at 1, M_bind at 1.
    assert ((if negb (path_exists w (dirname target))
             then makedirs (dirname target) else mret ()) w = (inr (), w1)) as ->.
    { destruct (path_exists w (dirname target)); simpl; exact Hens. }
    unfold mbind at 1, M_bind at 1, print, modify. fold w2.
    unfold write_file. rewrite bool_decide_eq_false_2 by done.
    assert (isdir w2 target = false) as -> by exact Hnodir1.
    assert (isdir w2 (dirname target) = true) as -> by exact Hd1.
    rewrite orb_true_r. done. }
  split; [exact Hrun|]. simpl.
  split; [by rewrite Hf1|]. split; [apply lookup_insert_eq|].
  split; [intros q Hq; by rewrite lookup_insert_ne, Hf1|].
  split; [by rewrite Ho1|]. split; [exact Hd1|exact Hsub1].
Qed.


End writing_and_listing.

(** ** What a compilation writes *)

Lemma makedirs_frame p w :
  files (fs (makedirs p w).2) = files (fs w)
  ∧ dirs (fs w) ⊆ dirs (fs (makedirs p w).2).
Proof.
  unfold makedirs. destruct (_ || _); simpl; [done|]. split; [done|set_solver].
Qed.

Lemma write_file_frame q c w :
  (∀ q', q' ≠ q → files (fs (write_file q c w).2) !! q' = files (fs w) !! q')
  ∧ dirs (fs (write_file q c w).2) = dirs (fs w).
Proof.
  unfold write_file. destruct (_ || _); simpl; [done|]. split; [|done].
  intros q' Hne. by rewrite lookup_insert_ne.
Qed.

Lemma write_unfold p build_filepath payload w :
  write p build_filepath payload w =
    let target := target_path p ++ build_filepath in
    match (if path_exists w (dirname target) then (inr (), w)
           else makedirs (dirname target) w) with
    | (inl e, w1) => (inl e, w1)
    | (inr _, w1) =>
        write_file target (FileText payload)
          {| fs := fs w1; stdout := stdout w1 ++ [target] |}
    end.
Proof.
  unfold write. simpl. unfold mbind at 1, M_bind at 1, gets.
  unfold mbind at 1, M_bind at 1.
  destruct (path_exists w _); simpl.
  - done.
  - by destruct (makedirs _ w) as [[e|[]] w1].
Qed.

Lemma write_frame p build_filepath payload w :
  (∀ q, q ≠ target_path p ++ build_filepath →
        files (fs (write p build_filepath payload w).2) !! q = files (fs w) !! q)
  ∧ dirs (fs w) ⊆ dirs (fs (write p build_filepath payload w).2).
Proof.
  rewrite write_unfold. simpl.
  set (target := target_path p ++ build_filepath).
  assert (files (fs (if path_exists w (dirname target) then (inr (), w)
                     else makedirs (dirname target) w).2) = files (fs w)
          ∧ dirs (fs w) ⊆ dirs (fs (if path_exists w (dirname target)
                     then (inr (), w) else makedirs (dirname target) w).2))
    as [Hf Hd].
  { destruct (path_exists w (dirname target)); [done|apply makedirs_frame]. }
  destruct (if path_exists w (dirname target) then _ else _) as [[e|[]] w1];
    simpl in *.
  - split; [by intros; rewrite Hf|done].
  - destruct (write_file_frame target (FileText payload)
                {| fs := fs w1; stdout := stdout w1 ++ [target] |}) as [Hf' Hd'].
    split.
    + intros q Hq. rewrite Hf' by done. simpl. by rewrite Hf.
    + rewrite Hd'. done.
Qed.

Section what_is_written.

Context {create_template : CreateTemplate} {discovery : Discovery}.
Variable self_project : Project.

(** X15. Whatever its outcome, [compile_model] changes no file but the one
    at the target path joined with the model's build path, and removes no
    directory. *)
Theorem compile_model_writes_one_file (model : Model) (models : list Model)
    (g : DiGraph) (w : World) :
  let out := compile_model self_project model models (g, w) in
  (∀ q, q ≠ target_path self_project ++ build_path model create_template →
        files (fs out.2.2) !! q = files (fs w) !! q)
  ∧ dirs (fs w) ⊆ dirs (fs out.2.2).
Proof.
  destruct (enabled self_project model) eqn:En; simpl;
    [destruct (load_error self_project model) as [e0|] eqn:Hload|].
  - by rewrite (compile_model_unloaded _ _ _ _ _ e0).
  - rewrite compile_model_enabled by done.
    destruct (render _ _ _) as [[e|rendered] g']; simpl; [done|].
    destruct (stmt_truthy _); simpl; [|done].
    pose proof (write_frame self_project (build_path model create_template)
      (default "" (compile_stmt model rendered self_project create_template)) w)
      as Hw.
    by destruct (write _ _ _ w) as [[e|[]] w'].
  - by rewrite compile_model_not_enabled.
Qed.

Lemma compile_model_keeps_file model pool g w q :
  target_path self_project ++ build_path model create_template ≠ q →
  files (fs (compile_model self_project model pool (g, w)).2.2) !! q
    = files (fs w) !! q.
Proof.
  intros Hq. destruct (enabled self_project model) eqn:En;
    [destruct (load_error self_project model) as [e0|] eqn:Hload|].
  - by rewrite (compile_model_unloaded _ _ _ _ _ e0).
  - rewrite compile_model_enabled by done.
    destruct (render _ _ _) as [[e|rendered] g']; simpl; [done|].
    destruct (stmt_truthy _); simpl; [|done].
    destruct (write_frame self_project (build_path model create_template)
      (default "" (compile_stmt model rendered self_project create_template)) w)
      as [Hw _].
    specialize (Hw q (not_eq_sym Hq)).
    by destruct (write _ _ _ w) as [[e|[]] w'].
  - by rewrite compile_model_not_enabled.
Qed.

Lemma compile_each_files todo pool g w q :
  (∀ m, m ∈ todo →
        target_path self_project ++ build_path m create_template ≠ q) →
  files (fs (compile_each self_project todo pool (g, w)).2.2) !! q
    = files (fs w) !! q.
Proof.
  revert g w. induction todo as [|model rest IH]; intros g w Hq; simpl; [done|].
  unfold mbind at 1, M_bind at 1.
  pose proof (compile_model_keeps_file model pool g w q) as Hm.
  destruct (compile_model self_project model pool (g, w)) as [[e|r] [g1 w1]];
    simpl in *.
  - apply Hm, Hq. by left.
  - unfold mbind, M_bind.
    assert (files (fs (compile_each self_project rest pool (g1, w1)).2.2) !! q
            = files (fs w1) !! q) as Hrest.
    { apply IH. intros m Hin. apply Hq. by right. }
    destruct (compile_each self_project rest pool (g1, w1))
      as [[e|others] [g2 w2]]; simpl in *; rewrite Hrest; apply Hm, Hq; by left.
Qed.

Lemma compile_each_produced todo pool s compiled s' :
  compile_each self_project todo pool s = (inr compiled, s') →
  length compiled = produced self_project todo pool s.
Proof.
  revert s compiled s'. induction todo as [|model rest IH];
    intros s compiled s'; simpl.
  - by intros [= <- _].
  - unfold mbind at 1, M_bind at 1.
    destruct (compile_model self_project model pool s) as [[e|r] s1]; [done|].
    unfold mbind, M_bind.
    destruct (compile_each self_project rest pool s1) as [[e|others] s2] eqn:Hr;
      [done|].
    intros [= <- _]. rewrite <- (IH _ _ _ Hr).
    by destruct r as [[|]|].
Qed.

(** X16. When [compile] has compiled a pool, the graph file holds the graph
    that the compilation of the models built from an empty linker, unless an
    analysis has the graph file as its output path: the analyses are
    compiled against a linker of their own, after the graph of the models
    was written. The first count is the number of the models for which
    [compile_model] returned [True]: a model that is skipped, or whose
    statement is not emitted, is not counted. *)
Theorem compile_persists_the_model_graph (models : list Model)
    (w w' : World) (counts : nat * nat) :
  compile_pool self_project models w = (inr counts, w') →
  (∀ a, a ∈ analysis_sources self_project →
        target_path self_project ++ build_path a create_template
          ≠ graph_path self_project) →
  ∃ compiled g w1,
    compile_each self_project models models (Linker.init, w)
      = (inr compiled, (g, w1))
    ∧ counts.1 = length compiled
    ∧ counts.1 = produced self_project models models (Linker.init, w)
    ∧ files (fs w') !! graph_path self_project = Some (FileGraph g).
Proof.
  unfold compile_pool. unfold mbind at 1, M_bind at 1.
  unfold with_linker at 1.
  destruct (compile_each self_project models models (Linker.init, w))
    as [[e|compiled] [g1 w1]] eqn:H1; [done|].
  unfold mbind at 1, M_bind at 1.
  destruct (write_graph_file self_project g1 w1) as [[e|[]] w2] eqn:H2; [done|].
  unfold mbind at 1, M_bind at 1. unfold with_linker.
  pose proof (compile_each_files (analysis_sources self_project) models
                Linker.init w2 (graph_path self_project)) as Hkeep.
  destruct (compile_each self_project (analysis_sources self_project) models
              (Linker.init, w2)) as [[e|analyses] [g3 w3]] eqn:H3; [done|].
  intros [= <- <-] Hpaths. exists compiled, g1, w1.
  split; [done|]. split; [done|].
  split; [by eapply compile_each_produced|]. simpl in Hkeep.
  rewrite Hkeep by done. by eapply write_graph_file_persists.
Qed.

End what_is_written.

(** ** Instances on the small project *)

Import Example.

(** Among [customers], the project's [orders] and the package's [orders]:
    nothing is named [missing]; [orders] alone is ambiguous; qualified by
    the package it is the package's. *)
Lemma find_model_by_name_outcomes_witness :
  let pool := [customers; orders; pkg_orders] in
  find_model_by_name pool "missing" None
    = inl (RuntimeError
        "Can't find a model named 'missing' in package 'ANY' -- does it exist?")
  ∧ find_model_by_name pool "orders" None
    = inl (RuntimeError
        "Model specification is ambiguous: model='orders' package='ANY' -- 2 models match criteria: [<Model shop.orders>, <Model utils.orders>]")
  ∧ find_model_by_name pool "orders" (Some "utils") = inr pkg_orders.
Proof.
  intros pool. split; [|split].
  - destruct (find_model_by_name_outcomes pool "missing" None)
      as (_ & _ & Hnone & _ & _).
    destruct Hnone as (msg & -> & Hmsg & _).
    + intros m Hm [Hname _]. vm_compute in Hm.
      repeat (apply elem_of_cons in Hm as [->|Hm]; [discriminate Hname|]).
      by apply elem_of_nil in Hm.
    + by rewrite Hmsg.
  - destruct (find_model_by_name_outcomes pool "orders" None)
      as (_ & _ & _ & Hmany & _).
    destruct Hmany as (msg & -> & Hmsg & _).
    + vm_compute. lia.
    + by rewrite Hmsg.
  - destruct (find_model_by_name_outcomes pool "orders" (Some "utils"))
      as (_ & _ & _ & _ & Hone).
    by destruct (Hone pkg_orders) as [-> _].
Defined.


Lemma enabled_model_is_a_node_witness :
  enabled proj orders = true
  ∧ ["shop"; "orders"] ∈
      nodes (@compile_model base_template proj orders [customers; orders]
               (nx_empty, ready_world)).2.1.
Proof.
  assert (enabled proj orders = true) as En by reflexivity.
  split; [exact En|].
  destruct (enabled_model_is_a_node (create_template := base_template)
              proj orders [customers; orders] nx_empty ready_world En)
    as [Hloaded _].
  destruct Hloaded as (_ & _ & Hin & _); [reflexivity|].
  exact Hin.
Defined.

(** An enabled model whose template is missing: the exception of the
    loader is raised and the model is no node of the graph. *)
Lemma enabled_model_with_missing_template :
  let out := @compile_model base_template proj broken [broken]
               (nx_empty, ready_world) in
  enabled proj broken = true
  ∧ out = (inl (TemplateNotFound ["broken.sql"]), (nx_empty, ready_world))
  ∧ fqn broken ∉ nodes out.2.1.
Proof.
  intros out. split; [reflexivity|]. split; [reflexivity|].
  change (nodes out.2.1) with (∅ : gset FQN). apply not_elem_of_empty.
Qed.

Lemma disabled_model_is_skipped_witness :
  get_config legacy proj !! "enabled" = Some (PyBool false)
  ∧ @compile_model base_template proj legacy [report; legacy]
      (nx_empty, ready_world) = (inr None, (nx_empty, ready_world)).
Proof.
  assert (get_config legacy proj !! "enabled" = Some (PyBool false)) as Hcfg
    by reflexivity.
  split; [exact Hcfg|].
  exact (disabled_model_is_skipped (create_template := base_template)
           proj legacy [report; legacy] nx_empty ready_world Hcfg).
Defined.


Lemma model_without_enabled_is_skipped_witness :
  get_config unset proj !! "enabled" = None
  ∧ @compile_model base_template proj unset [unset]
      (nx_empty, ready_world) = (inr None, (nx_empty, ready_world)).
Proof.
  assert (get_config unset proj !! "enabled" = None) as Hcfg by reflexivity.
  split; [exact Hcfg|].
  exact (proj2 (proj2 (model_without_enabled_is_skipped
           (create_template := base_template)
           proj unset [unset] nx_empty ready_world Hcfg))).
Defined.

(** Nothing on disk: [compile] stops at the listing of the modules directory
    and creates no directory. *)
Lemma compile_creates_no_directory :
  let out := @compile base_template found_nothing proj empty_world in
  path_exists empty_world (target_path proj) = false
  ∧ path_exists empty_world (modules_path proj) = false
  ∧ out = (inl (OSError ["dbt_modules"]), empty_world)
  ∧ path_exists out.2 (target_path proj) = false
  ∧ path_exists out.2 (modules_path proj) = false.
Proof. vm_compute. by repeat split. Qed.

Lemma initialize_creates_directories_witness :
  let out := initialize proj empty_world in
  out.1 = inr ()
  ∧ isdir out.2 ["target"] = true
  ∧ isdir out.2 ["dbt_modules"] = true
  ∧ @compile base_template found_nothing proj empty_world
      = (inl (OSError ["dbt_modules"]), empty_world).
Proof.
  intros out.
  assert (target_path proj ≠ []) as Ht by discriminate.
  assert (modules_path proj ≠ []) as Hm by discriminate.
  assert (∀ q, q ∈ prefixes (target_path proj) ++ prefixes (modules_path proj) →
               isfile empty_world q = false) as Hfiles by (by intros q _).
  destruct (initialize_creates_directories
              (create_template := base_template) (discovery := found_nothing)
              proj empty_world Ht Hm Hfiles)
    as [(w' & Hrun & Hd1 & Hd2 & _) Hcompile].
  unfold out. rewrite Hrun. simpl.
  split; [done|]. split; [exact Hd1|]. split; [exact Hd2|].
  apply Hcompile. reflexivity.
Defined.

(** With the package installed, the pool has two models named [orders]. *)
Lemma compile_validates_names_witness :
  (@dependency_projects found_clash proj installed_world).1 = inr [pkg]
  ∧ @candidate_pool found_clash proj [pkg] = [customers; orders; pkg_orders]
  ∧ @compile base_template found_clash proj installed_world
      = (inl (RuntimeError "ERROR: Conflicting model found model=orders"),
         installed_world).
Proof.
  assert ((@dependency_projects found_clash proj installed_world).1 = inr [pkg])
    as Hdeps by (vm_compute; reflexivity).
  split; [exact Hdeps|]. split; [reflexivity|].
  destruct (compile_validates_names (create_template := base_template)
              (discovery := found_clash) proj installed_world [pkg] Hdeps)
    as [Hdup _].
  destruct Hdup as (before & model & after & Heq & Hnd & Hin & Hrun & _).
  - change (name <$> candidate_pool proj [pkg])
      with ["customers"; "orders"; "orders"].
    intros [_ [Hfresh _]%NoDup_cons]%NoDup_cons. apply Hfresh. by left.
  - assert (name model = "orders") as Hname.
    { assert (@compile base_template found_clash proj installed_world
                = (inl (RuntimeError (conflict_msg "orders")), installed_world))
        as Hc by (vm_compute; reflexivity).
      rewrite Hc in Hrun. injection Hrun as Hmsg.
      symmetry. by apply (inj (String.append _)) in Hmsg. }
    rewrite Hrun, Hname. reflexivity.
Defined.

(** [report] references the disabled [legacy]: the reference resolves,
    [compile] succeeds, and the persisted graph has the node of [legacy] and
    the edge from it to [report]. *)
Lemma reference_to_disabled_model_resolves :
  let out := @compile base_template found_legacy proj ready_world in
  enabled proj legacy = false
  ∧ @candidate_pool found_legacy proj [] = [report; legacy]
  ∧ out.1 = inr (1, 0)
  ∧ files (fs out.2) !! ["target"; "graph-build.yml"]
      = Some (FileGraph
          {| nodes := {[fqn report; fqn legacy]};
             edges := {[(fqn legacy, fqn report)]} |}).
Proof. intros out. repeat split; vm_compute; reflexivity. Qed.

Lemma disabled_model_in_the_pool_witness :
  enabled proj legacy = false
  ∧ find_model_by_name [report; legacy] "legacy" None = inr legacy
  ∧ (@do_ref base_template "analytics" (fqn report) [report; legacy]
       ["legacy"] nx_empty).1
      = inr (dq +:+ "analytics" +:+ dq +:+ "." +:+ dq +:+ "legacy" +:+ dq).
Proof.
  assert (enabled proj legacy = false) as Hoff by reflexivity.
  split; [exact Hoff|].
  destruct (disabled_model_in_the_pool (create_template := base_template)
              proj legacy Hoff) as (_ & Hfind & Href & _).
  assert (find_model_by_name [report; legacy] "legacy" None = inr legacy) as Hf.
  { apply Hfind. reflexivity. }
  split; [exact Hf|].
  exact (f_equal fst (Href report [report; legacy] None "legacy" nx_empty Hf)).
Defined.

Lemma validate_models_unique_distinct_witness :
  validate_models_unique [customers; orders] = inr ()
  ∧ validate_models_unique [customers; orders; pkg_orders]
      = inl (RuntimeError "ERROR: Conflicting model found model=orders").
Proof.
  split.
  - apply (validate_models_unique_distinct [customers; orders]).
    change (NoDup ["customers"; "orders"]).
    apply NoDup_cons. split; [by intros ?%list_elem_of_singleton|].
    apply NoDup_singleton.
  - reflexivity.
Defined.

Lemma do_ref_wrong_arity_witness :
  @do_ref base_template "analytics" (fqn customers) [customers; orders]
    ["shop"; "orders"; "extra"] nx_empty
    = (inl (UnboundLocalError "other_model_name"), nx_empty).
Proof.
  apply (do_ref_wrong_arity (create_template := base_template));
    simpl; lia.
Defined.

Lemma do_ref_failed_resolution_witness :
  find_model_by_name [customers; orders] "missing" None
    = inl (ReferenceNotFound "missing" None)
  ∧ @do_ref base_template "analytics" (fqn customers) [customers; orders]
      ["missing"] nx_empty
      = (inl (ReferenceNotFound "missing" None), nx_empty).
Proof.
  assert (find_model_by_name [customers; orders] "missing" None
            = inl (ReferenceNotFound "missing" None)) as Hfind by reflexivity.
  split; [exact Hfind|].
  exact (do_ref_failed_resolution (create_template := base_template)
           "analytics" (fqn customers) [customers; orders] None "missing"
           _ nx_empty Hfind).
Defined.

Lemma validated_pool_is_unambiguous_witness :
  validate_models_unique [customers; orders] = inr ()
  ∧ ((∃ m, find_model_by_name [customers; orders] "orders" (Some "shop") = inr m
           ∧ m ∈ [customers; orders] ∧ name m = "orders")
     ∨ find_model_by_name [customers; orders] "orders" (Some "shop")
         = inl (ReferenceNotFound "orders" (Some "shop"))).
Proof.
  assert (validate_models_unique [customers; orders] = inr ()) as Hok
    by reflexivity.
  split; [exact Hok|].
  exact (validated_pool_is_unambiguous [customers; orders] "orders"
           (Some "shop") Hok).
Defined.

Lemma find_model_by_name_order_witness :
  [customers; orders] ≡ₚ [orders; customers]
  ∧ find_model_by_name [customers; orders] "orders" None = inr orders
  ∧ find_model_by_name [orders; customers] "orders" None = inr orders.
Proof.
  assert ([customers; orders] ≡ₚ [orders; customers]) as Hperm
    by apply Permutation_swap.
  assert (find_model_by_name [customers; orders] "orders" None = inr orders)
    as Hfind by reflexivity.
  split; [exact Hperm|]. split; [exact Hfind|].
  exact (proj1 (find_model_by_name_order _ _ "orders" None Hperm) orders Hfind).
Defined.

Lemma compile_model_without_references_witness :
  enabled proj orders = true
  ∧ (∀ args, Ref args ∉ template orders)
  ∧ (@compile_model base_template proj orders [customers; orders]
       (nx_empty, ready_world)).2.1 = nx_add_node (fqn orders) nx_empty.
Proof.
  assert (enabled proj orders = true) as En by reflexivity.
  assert (∀ args, Ref args ∉ template orders) as Hno.
  { intros args Hin. apply list_elem_of_singleton in Hin. discriminate Hin. }
  split; [exact En|]. split; [exact Hno|].
  apply (compile_model_without_references (create_template := base_template)
           proj orders [customers; orders] nx_empty ready_world En Hno).
  reflexivity.
Defined.

Lemma edges_are_the_references_witness :
  let out := @compile_each base_template proj [customers; orders]
               [customers; orders] (Linker.init, ready_world) in
  out.1 = inr [true; true]
  ∧ (fqn orders, fqn customers) ∈ edges out.2.1.
Proof.
  intros out.
  assert (out = (inr [true; true], (out.2.1, out.2.2))) as Hrun
    by (vm_compute; reflexivity).
  split; [by rewrite Hrun|].
  apply (edges_are_the_references (create_template := base_template)
           proj _ _ _ _ _ _ Hrun).
  exists customers, orders. split; [by left|]. split; [reflexivity|].
  split; [|split; reflexivity]. exists None, "orders". split; [|reflexivity].
  right. by left.
Defined.

Lemma write_stores_payload_witness :
  let out := write proj ["orders.sql"] "select 1" ready_world in
  out.1 = inr ()
  ∧ files (fs out.2) !! ["target"; "orders.sql"] = Some (FileText "select 1")
  ∧ stdout out.2 = [["target"; "orders.sql"]].
Proof.
  intros out.
  destruct (write_stores_payload proj ["orders.sql"] "select 1" ready_world)
    as (w' & Hrun & _ & Hlook & _ & Hout & _).
  - discriminate.
  - reflexivity.
  - by intros q _.
  - unfold out. rewrite Hrun. simpl. split; [done|]. split; [exact Hlook|].
    exact Hout.
Defined.


Lemma initialize_twice_witness :
  let w' := (initialize proj empty_world).2 in
  initialize proj empty_world = (inr (), w')
  ∧ initialize proj w' = (inr (), w').
Proof.
  intros w'.
  assert (initialize proj empty_world = (inr (), w')) as Hrun
    by (vm_compute; reflexivity).
  split; [exact Hrun|].
  exact (initialize_twice proj empty_world w' Hrun).
Defined.

Lemma compile_counts_witness :
  let out := @compile_pool base_template found_legacy proj [report; legacy]
               ready_world in
  out.1 = inr (1, 0)
  ∧ 1 ≤ length (filter (λ m, enabled proj m = true) [report; legacy]).
Proof.
  intros out.
  assert (out = (inr (1, 0), out.2)) as Hrun by (vm_compute; reflexivity).
  split; [by rewrite Hrun|].
  exact (proj1 (compile_counts (create_template := base_template)
                  (discovery := found_legacy) proj _ _ _ _ _ Hrun)).
Defined.

Lemma compile_model_writes_one_file_witness :
  let out := @compile_model base_template proj customers [customers; orders]
               (nx_empty, ready_world) in
  ["target"; "orders.sql"]
    ≠ target_path proj ++ build_path customers base_template
  ∧ files (fs out.2.2) !! ["target"; "orders.sql"] = None.
Proof.
  intros out.
  assert (["target"; "orders.sql"]
            ≠ target_path proj ++ build_path customers base_template) as Hne
    by discriminate.
  split; [exact Hne|].
  destruct (compile_model_writes_one_file (create_template := base_template)
              proj customers [customers; orders] nx_empty ready_world)
    as [Hfiles _].
  exact (Hfiles _ Hne).
Defined.

Lemma compile_persists_the_model_graph_witness :
  let out := @compile_pool base_template found_legacy proj [skipped; orders]
               ready_world in
  out.1 = inr (1, 0)
  ∧ @produced base_template proj [skipped; orders] [skipped; orders]
      (Linker.init, ready_world) = 1
  ∧ ∃ g, files (fs out.2) !! @graph_path base_template proj = Some (FileGraph g).
Proof.
  intros out.
  assert (out = (inr (1, 0), out.2)) as Hrun by (vm_compute; reflexivity).
  split; [by rewrite Hrun|].
  destruct (compile_persists_the_model_graph (create_template := base_template)
              (discovery := found_legacy) proj _ _ _ _ Hrun)
    as (compiled & g & w1 & _ & _ & Hcount & Hfile).
  - intros a Hin. exact (False_ind _ (proj1 (elem_of_nil a) Hin)).
  - split; [by rewrite <- Hcount|]. exists g. exact Hfile.
Defined.
